(** * Visualization core of spotify-player-klu

    Shallow embedding of the visualization/colour subsystem:
    - [src/spotify_player/src/ui/visualizations.rs]: [generate_color_palette],
      [apply_intensity], [get_color_for_scheme] and the linear-wave renderer
      [render_concentric_waves];
    - [src/waveform_test/src/main.rs]: the beat clock, the radial
      concentric-wave renderer and its own [get_color_for_scheme];
    - [src/waveform_test/src/main.rs], also: the [App] state and its key
      handling ([next_color], [prev_color], [increase_bpm], [decrease_bpm],
      [color_scheme]);
    - [src/spotify_player/src/utils.rs]: [extract_dominant_color],
      [format_duration], [map_join], [parse_uri] and
      [filtered_items_from_query].

    Numeric model.  [u8] values are integers [Z] (with the range of the type
    written as hypotheses where a proof needs it).  On the colour path and
    in the BPM keys an [f64] is its value in the rationals [Q], and the
    products of [apply_intensity] and of the [Custom] tiers and the BPM
    additions are rounded to binary64 ([F64Q.f64_round], round to nearest,
    ties to even), so [90.0 * 0.7] is [62.99999999999999] there as in Rust;
    these definitions compute.  The palette blends of
    [generate_color_palette] are written as exact sums of products.  The
    renderers, which need [sqrt] and [sin], are modelled over the reals [R]
    with exact operations.  The Rust casts are written out: [f64 as u8]
    truncates toward zero and saturates into [0, 255]; [u64 as u8] keeps the
    low 8 bits. *)

From Stdlib Require Import ZArith QArith Qround Qpower List Lia.
From Stdlib Require Import Reals.
From Stdlib Require String Ascii Qreals.
From Stdlib Require Lra Lqa.
Import ListNotations.

(** ** Shared data *)

Module Rgb.

(** An [(u8, u8, u8)] triple. *)
Definition rgb : Type := (Z * Z * Z)%type.

(** [ratatui::style::Color], restricted to the two constructors used. *)
Inductive Color : Type :=
| Rgb (r g b : Z)
| Black.

Definition is_u8 (c : Z) : Prop := (0 <= c <= 255)%Z.

Definition rgb_in_range (c : rgb) : Prop :=
  let '(r, g, b) := c in is_u8 r /\ is_u8 g /\ is_u8 b.

Definition color_in_range (c : Color) : Prop :=
  match c with
  | Rgb r g b => is_u8 r /\ is_u8 g /\ is_u8 b
  | Black => True
  end.

End Rgb.
Import Rgb.

(** ** [f64] rounding and casts over the rationals *)

Module F64Q.

(** Truncation toward zero of a rational. *)
Definition trunc (x : Q) : Z :=
  if Qle_bool 0 x then Qfloor x else (- Qfloor (- x))%Z.

(** [x as u8] for a finite [f64]: truncate toward zero, then saturate. *)
Definition as_u8 (x : Q) : Z := Z.max 0 (Z.min 255 (trunc x)).

(** [c as f64] for an integer [c]. *)
Definition of_int (c : Z) : Q := inject_Z c.

(** [2 ^ k] for an integer exponent [k]. *)
Definition pow2 (k : Z) : Q := Qpower (inject_Z 2) k.

(** [floor (log2 x)] for [x > 0]: the binary logarithms of the numerator
    and of the denominator give it up to one. *)
Definition flog2 (x : Q) : Z :=
  let l := (Z.log2 (Qnum x) - Z.log2 (Zpos (Qden x)))%Z in
  if Qle_bool (pow2 l) x then l else (l - 1)%Z.

(** The weight [2 ^ f64_exp x] of the last significand bit of a binary64
    number of magnitude [x > 0]: 53 significand bits, and the fixed
    exponent of the subnormals below [2 ^ -1022]. *)
Definition f64_exp (x : Q) : Z := Z.max (-1074) (flog2 x - 52).

(** Rounding to the nearest integer, ties to even. *)
Definition round_even (y : Q) : Z :=
  let f := Qfloor y in
  match Qcompare (y - inject_Z f) (1#2) with
  | Lt => f
  | Gt => (f + 1)%Z
  | Eq => if Z.even f then f else (f + 1)%Z
  end.

(** Rounding of an [x > 0] to the nearest binary64 value, ties to even. *)
Definition round_pos (x : Q) : Q :=
  let e := f64_exp x in inject_Z (round_even (x * pow2 (- e))) * pow2 e.

(** The IEEE 754 result of an [f64] operation whose exact value is [x]
    (round to nearest, ties to even).  Overflow to an infinity is not
    written: every result here goes through [as u8], which maps an infinity
    to the same byte as any finite value of that sign above [255], or is a
    BPM within [[60, 200]].  A decimal literal such as [0.7] denotes
    [f64_round (7#10)]. *)
Definition f64_round (x : Q) : Q :=
  if Qle_bool x 0 then (if Qle_bool 0 x then 0 else - round_pos (- x))
  else round_pos x.

(** [a * b], [a + b] and [a - b] on [f64]. *)
Definition fmul (a b : Q) : Q := f64_round (a * b).
Definition fadd (a b : Q) : Q := f64_round (a + b).
Definition fsub (a b : Q) : Q := f64_round (a - b).

End F64Q.
Import F64Q.

(** ** [src/spotify_player/src/ui/visualizations.rs] *)

Module Visualizations.

(** [pub struct AlbumPalette { pub colors: Vec<(u8, u8, u8)> }] *)
Record AlbumPalette : Type := { colors : list rgb }.

(** [AlbumPalette::default] *)
Definition default_palette : AlbumPalette :=
  {| colors := [(0, 255, 255); (0, 200, 255); (50, 150, 255); (100, 100, 255)]%Z |}.

Inductive ColorScheme : Type :=
| Cyan | Warm | Purple | Green | Sunset | Ocean | Custom.

(** [u8::saturating_sub] and [u8::saturating_add]. *)
Definition u8_saturating_sub (a b : Z) : Z := Z.max 0 (a - b).
Definition u8_saturating_add (a b : Z) : Z := Z.min 255 (a + b).

(** [generate_color_palette(r, g, b)] *)
Definition generate_color_palette (r g b : Z) : AlbumPalette :=
  let blend (x y : Z) (wx wy : Q) :=
    Z.min (as_u8 (of_int x * wx + of_int y * wy)) 255 in
  {| colors :=
       [ (* Base color *)
         (r, g, b);
         (* Complementary color *)
         (u8_saturating_sub 255 r, u8_saturating_sub 255 g, u8_saturating_sub 255 b);
         (* Analogous colors *)
         (blend r g (8#10) (2#10), blend g b (8#10) (2#10), blend b r (8#10) (2#10));
         (blend r b (2#10) (8#10), blend g r (2#10) (8#10), blend b g (2#10) (8#10));
         (* Lighter variant *)
         (u8_saturating_add r 60, u8_saturating_add g 60, u8_saturating_add b 60);
         (* Darker variant *)
         (u8_saturating_sub r 60, u8_saturating_sub g 60, u8_saturating_sub b 60) ] |}.

(** [apply_intensity(color, intensity)]; the same expression
    [Color::Rgb((base.0 as f64 * intensity) as u8, ...)] closes every arm of
    [get_color_for_scheme]. *)
Definition apply_intensity (color : rgb) (intensity : Q) : Color :=
  let '(c0, c1, c2) := color in
  Rgb (as_u8 (fmul (of_int c0) intensity))
      (as_u8 (fmul (of_int c1) intensity))
      (as_u8 (fmul (of_int c2) intensity)).

(** The [let base = match level { ... }] tables of the built-in arms. *)
Definition cyan_base (level : Z) : rgb :=
  match level with 0 => (0, 255, 255) | 1 => (0, 200, 255)
              | 2 => (0, 150, 200) | _ => (0, 100, 150) end%Z.
Definition warm_base (level : Z) : rgb :=
  match level with 0 => (255, 100, 0) | 1 => (255, 150, 50)
              | 2 => (200, 100, 0) | _ => (150, 70, 0) end%Z.
Definition purple_base (level : Z) : rgb :=
  match level with 0 => (200, 50, 255) | 1 => (180, 80, 230)
              | 2 => (150, 50, 200) | _ => (100, 30, 150) end%Z.
Definition green_base (level : Z) : rgb :=
  match level with 0 => (50, 255, 150) | 1 => (50, 220, 120)
              | 2 => (30, 180, 100) | _ => (20, 120, 70) end%Z.
Definition sunset_base (level : Z) : rgb :=
  match level with 0 => (255, 100, 150) | 1 => (255, 150, 100)
              | 2 => (200, 100, 100) | _ => (150, 70, 80) end%Z.
Definition ocean_base (level : Z) : rgb :=
  match level with 0 => (0, 150, 255) | 1 => (20, 120, 220)
              | 2 => (10, 80, 180) | _ => (5, 50, 120) end%Z.

(** The [Custom] arm's tier table derived from the album colour. *)
Definition custom_base (r g b : Z) (level : Z) : rgb :=
  match level with
  | 0 => (r, g, b)
  | 1 => (as_u8 (fmul (of_int r) (f64_round (85#100))),
          as_u8 (fmul (of_int g) (f64_round (85#100))),
          as_u8 (fmul (of_int b) (f64_round (85#100))))
  | 2 => (as_u8 (fmul (of_int r) (f64_round (7#10))),
          as_u8 (fmul (of_int g) (f64_round (7#10))),
          as_u8 (fmul (of_int b) (f64_round (7#10))))
  | _ => (as_u8 (fmul (of_int r) (f64_round (5#10))),
          as_u8 (fmul (of_int g) (f64_round (5#10))),
          as_u8 (fmul (of_int b) (f64_round (5#10))))
  end%Z.

(** [get_color_for_scheme(scheme, intensity, level, album_color)].  In the
    [Custom] arm without an album colour the source calls
    [get_color_for_scheme(ColorScheme::Cyan, intensity, level, None)], which
    is the [Cyan] arm; it is written here unfolded once. *)
Definition get_color_for_scheme (scheme : ColorScheme) (intensity : Q)
    (level : Z) (album_color : option rgb) : Color :=
  match scheme with
  | Custom =>
      match album_color with
      | Some (r, g, b) => apply_intensity (custom_base r g b level) intensity
      | None => apply_intensity (cyan_base level) intensity
      end
  | Cyan => apply_intensity (cyan_base level) intensity
  | Warm => apply_intensity (warm_base level) intensity
  | Purple => apply_intensity (purple_base level) intensity
  | Green => apply_intensity (green_base level) intensity
  | Sunset => apply_intensity (sunset_base level) intensity
  | Ocean => apply_intensity (ocean_base level) intensity
  end.

(** The base table of each built-in scheme (the [Custom] scheme has none). *)
Definition builtin_base (scheme : ColorScheme) : option (Z -> rgb) :=
  match scheme with
  | Cyan => Some cyan_base | Warm => Some warm_base | Purple => Some purple_base
  | Green => Some green_base | Sunset => Some sunset_base | Ocean => Some ocean_base
  | Custom => None
  end.

End Visualizations.

(** ** The colour resolver of [src/waveform_test/src/main.rs] *)

Module Waveform.

(** The demo's [ColorScheme]: the built-in schemes only. *)
Inductive ColorScheme : Type :=
| Cyan | Warm | Purple | Green | Sunset | Ocean.

(** [get_color_for_scheme(scheme, intensity, level)]; its six tables are
    textually those of [visualizations.rs]. *)
Definition get_color_for_scheme (scheme : ColorScheme) (intensity : Q) (level : Z) : Color :=
  match scheme with
  | Cyan => Visualizations.apply_intensity (Visualizations.cyan_base level) intensity
  | Warm => Visualizations.apply_intensity (Visualizations.warm_base level) intensity
  | Purple => Visualizations.apply_intensity (Visualizations.purple_base level) intensity
  | Green => Visualizations.apply_intensity (Visualizations.green_base level) intensity
  | Sunset => Visualizations.apply_intensity (Visualizations.sunset_base level) intensity
  | Ocean => Visualizations.apply_intensity (Visualizations.ocean_base level) intensity
  end.

End Waveform.

(** ** [f64] operations over the reals (renderers and beat clock) *)

Module F64R.
Local Open Scope R_scope.

(** Truncation toward zero. *)
Definition trunc (x : R) : Z :=
  if Rle_dec 0 x then Int_part x else (- Int_part (- x))%Z.

(** Rust's [x % y] on [f64] (C's [fmod]): [x - trunc(x / y) * y], which
    has the sign of [x]. *)
Definition frem (x y : R) : R := x - IZR (trunc (x / y)) * y.

(** [f64::round]: to the nearest integer, halves away from zero. *)
Definition round (x : R) : R :=
  if Rle_dec 0 x then IZR (Int_part (x + /2)) else - IZR (Int_part (- x + /2)).

(** [x as usize] for a finite [f64] on a 64-bit target. *)
Definition as_usize (x : R) : Z := Z.max 0 (Z.min (2 ^ 64 - 1) (trunc x)).

End F64R.

(** The glyphs drawn by the two renderers. *)
Inductive Glyph : Type :=
| FullBlock   (* '█' *)
| Solid       (* '●' *)
| Ring        (* '◉' *)
| HollowRing  (* '○' *)
| Dot         (* '·' *)
| Blank.      (* ' ' *)

(** A grid is a list of rows; [cell_at g x y] is column [x] of row [y]. *)
Definition cell_at {A : Type} (d : A) (g : list (list A)) (x y : nat) : A :=
  nth x (nth y g []) d.

(** ** Linear wave: [render_concentric_waves] of [visualizations.rs] *)

Module LinearWave.
Local Open Scope R_scope.

(** The [wave_color] chosen from the optional album colour. *)
Definition wave_color (album_color : option rgb) : Color :=
  let '(r, g, b) := match album_color with Some c => c | None => (0, 255, 255)%Z end in
  Rgb r g b.

(** The pre-computed [wave_positions] vector, one row index per column, for
    an area of [width] × [height] cells. *)
Definition wave_positions (width height : nat) (beat_progress : R) : list Z :=
  let wave_phase := beat_progress * (5 / 100) in
  let center_y := INR height / 2 in
  let amplitude := Rmax (INR height / 5) (15 / 10) in
  map (fun x => F64R.as_usize (F64R.round
                 (center_y + sin (INR x * (2 / 10) + wave_phase) * amplitude)))
      (seq 0 width).

(** The text grid built by the renderer, before it is handed to the
    [Paragraph] widget (the optional border belongs to the compositor). *)
Definition render_concentric_waves (width height : nat) (beat_progress : R)
    (album_color : option rgb) : list (list (Glyph * Color)) :=
  let positions := wave_positions width height beat_progress in
  map (fun y =>
         map (fun x =>
                if Z.eqb (Z.of_nat y) (nth x positions 0%Z)
                then (FullBlock, wave_color album_color)
                else (Blank, Black))
             (seq 0 width))
      (seq 0 height).

Definition is_lit (c : Glyph * Color) : bool :=
  match fst c with FullBlock => true | _ => false end.

(** Lit cells in column [x], and in the whole grid. *)
Definition column_lit_count (g : list (list (Glyph * Color))) (x : nat) : nat :=
  length (filter (fun row => is_lit (nth x row (Blank, Black))) g).

Definition lit_cell_count (g : list (list (Glyph * Color))) : nat :=
  list_sum (map (fun row => length (filter is_lit row)) g).

End LinearWave.

(** ** Beat clock and radial renderer of [src/waveform_test/src/main.rs] *)

Module RadialWave.
Local Open Scope R_scope.

(** [let beat_progress = (elapsed * app.simulated_bpm / 60.0) % 1.0;] *)
Definition beat_progress (elapsed bpm : R) : R := F64R.frem (elapsed * bpm / 60) 1.

(** The [intensity] computed for cell [(x, y)] of a [width] × [height] area. *)
Definition cell_intensity (width height : nat) (beat_progress : R) (x y : nat) : R :=
  let center_x := INR width / 2 in
  let center_y := INR height / 2 in
  let wave_offset := beat_progress * 15 in
  let dx := INR x - center_x in
  let dy := (INR y - center_y) * 2 in
  let dist := sqrt (dx * dx + dy * dy) in
  let wave_phase := F64R.frem (dist - wave_offset) 5 in
  if Rlt_dec wave_phase 1 then 1 - wave_phase else 0.

(** The band of an intensity: its glyph and the [(level, intensity)] passed
    to [get_color_for_scheme], or [None] for the uncoloured blank. *)
Definition cell_band (intensity : R) : Glyph * option (Z * R) :=
  if Rlt_dec (7 / 10) intensity then (Solid, Some (0%Z, intensity))
  else if Rlt_dec (5 / 10) intensity then (Ring, Some (1%Z, intensity))
  else if Rlt_dec (3 / 10) intensity then (HollowRing, Some (2%Z, intensity))
  else if Rlt_dec (15 / 100) intensity then (Dot, Some (3%Z, intensity))
  else (Blank, None).

(** [render_concentric_waves(f, app, area)]: the grid of cells. *)
Definition render_concentric_waves (elapsed bpm : R) (width height : nat)
    : list (list (Glyph * option (Z * R))) :=
  let bp := beat_progress elapsed bpm in
  map (fun y => map (fun x => cell_band (cell_intensity width height bp x y)) (seq 0 width))
      (seq 0 height).

End RadialWave.

(** ** [extract_dominant_color] of [src/spotify_player/src/utils.rs] *)

Module DominantColor.

(** An RGB8 image as its rows of pixels. *)
Definition image : Type := list (list rgb).

(** [enumerate_pixels]: [(x, y, pixel)] in row-major order. *)
Fixpoint enumerate_row (x y : nat) (row : list rgb) : list (nat * nat * rgb) :=
  match row with
  | [] => []
  | p :: rest => (x, y, p) :: enumerate_row (S x) y rest
  end.

Fixpoint enumerate_rows (y : nat) (rows : image) : list (nat * nat * rgb) :=
  match rows with
  | [] => []
  | row :: rest => enumerate_row 0 y row ++ enumerate_rows (S y) rest
  end.

Definition enumerate_pixels (img : image) : list (nat * nat * rgb) := enumerate_rows 0 img.

(** The four [u64] accumulators [r_sum], [g_sum], [b_sum], [count]; at most
    256 samples of at most 255 each are added, so they never overflow. *)
Record sums : Type := { r_sum : Z; g_sum : Z; b_sum : Z; count : Z }.

Definition sums0 : sums := {| r_sum := 0; g_sum := 0; b_sum := 0; count := 0 |}%Z.

(** The body of the [for (x, y, pixel) in rgb_img.enumerate_pixels()] loop. *)
Definition step (s : sums) (e : nat * nat * rgb) : sums :=
  let '(x, y, (r, g, b)) := e in
  if Nat.eqb (x mod 4) 0 && Nat.eqb (y mod 4) 0 then
    let brightness := ((r + g + b) / 3)%Z in
    if Z.ltb 20 brightness && Z.ltb brightness 235 then
      {| r_sum := r_sum s + r; g_sum := g_sum s + g;
         b_sum := b_sum s + b; count := count s + 1 |}%Z
    else s
  else s.

(** [u64 as u8]. *)
Definition u64_as_u8 (v : Z) : Z := Z.land v 255.

(** The part of [extract_dominant_color] after
    [img.resize(64, 64, FilterType::Nearest).to_rgb8()]. *)
Definition extract_from_rgb (rgb_img : image) : rgb :=
  let s := fold_left step (enumerate_pixels rgb_img) sums0 in
  if Z.eqb (count s) 0 then (0, 200, 255)%Z
  else (u64_as_u8 (r_sum s / count s), u64_as_u8 (g_sum s / count s),
        u64_as_u8 (b_sum s / count s))%Z.

(** [extract_dominant_color(img)], with the image crate's nearest-neighbour
    [resize] passed in. *)
Definition extract_dominant_color (resize : image -> image) (img : image) : rgb :=
  extract_from_rgb (resize img).

(** The samples kept, as the spec describes them: every 4th pixel in both
    axes whose brightness [(r + g + b) / 3] lies strictly in [(20, 235)]. *)
Definition kept (e : nat * nat * rgb) : bool :=
  let '(x, y, (r, g, b)) := e in
  Nat.eqb (x mod 4) 0 && Nat.eqb (y mod 4) 0
  && Z.ltb 20 ((r + g + b) / 3) && Z.ltb ((r + g + b) / 3) 235.

Definition sum_channel (f : rgb -> Z) (l : list (nat * nat * rgb)) : Z :=
  fold_right (fun e acc => (f (snd e) + acc)%Z) 0%Z l.

Definition red (c : rgb) : Z := let '(r, _, _) := c in r.
Definition green (c : rgb) : Z := let '(_, g, _) := c in g.
Definition blue (c : rgb) : Z := let '(_, _, b) := c in b.

(** An image with at least one pixel, at [(0, 0)]. *)
Definition nonempty (img : image) : bool :=
  match img with (_ :: _) :: _ => true | _ => false end.

End DominantColor.

(** ** Helpers of [src/spotify_player/src/utils.rs] *)

Module Utils.
Import String Ascii.
Local Open Scope nat_scope.

(** [str::split(sep)]: the pieces between separators, [n + 1] pieces for
    [n] separators. *)
Fixpoint split_on (sep : ascii) (s : string) : list string :=
  match s with
  | EmptyString => [EmptyString]
  | String c rest =>
      let parts := split_on sep rest in
      if Ascii.eqb c sep then EmptyString :: parts
      else match parts with
           | p :: ps => String c p :: ps
           | [] => [String c EmptyString]
           end
  end.

(** [parse_uri(uri)]: a five-part URI [spotify:user:{user_id}:{type}:{id}]
    becomes [spotify:{type}:{id}]; any other URI is returned as it is
    ([Cow::Borrowed]).  [[..].join(":")] is [String.concat ":"]. *)
Definition parse_uri (uri : string) : string :=
  let parts := split_on ":"%char uri in
  if Nat.eqb (List.length parts) 5
  then String.concat ":" [nth 0 parts EmptyString; nth 3 parts EmptyString; nth 4 parts EmptyString]
  else uri.

(** [map_join(v, f, sep)]: the fold that adds [sep] only after a non-empty
    accumulator. *)
Definition map_join {T : Type} (v : list T) (f : T -> string) (sep : string) : string :=
  fold_left (fun x y => if String.eqb x EmptyString then String.append x y
                        else String.append (String.append x sep) y)
            (map f v) EmptyString.

(** Decimal digits, as [Display] prints an unsigned integer. *)
Definition digit_char (d : nat) : ascii := ascii_of_nat (48 + d).

Fixpoint show_nat_fuel (fuel n : nat) : string :=
  match fuel with
  | 0 => EmptyString
  | S f => if Nat.ltb n 10 then String (digit_char n) EmptyString
           else String.append (show_nat_fuel f (n / 10)) (String (digit_char (n mod 10)) EmptyString)
  end.

Definition show_nat (n : nat) : string := show_nat_fuel (S n) n.

Fixpoint zeros (n : nat) : string :=
  match n with 0 => EmptyString | S k => String "0"%char (zeros k) end.

(** [format!("{}", z)] for an [i64]. *)
Definition show_int (z : Z) : string :=
  if Z.ltb z 0 then String "-"%char (show_nat (Z.to_nat (- z))) else show_nat (Z.to_nat z).

(** [format!("{:02}", z)]: zero padding after the sign to width 2. *)
Definition show_int_02 (z : Z) : string :=
  let sign := if Z.ltb z 0 then "-"%string else EmptyString in
  let digits := show_nat (Z.to_nat (Z.abs z)) in
  String.append sign (String.append (zeros (2 - (String.length sign + String.length digits))) digits).

(** [format_duration(duration)], given [secs = duration.num_seconds()];
    Rust's [/] and [%] on [i64] truncate toward zero ([Z.quot], [Z.rem]). *)
Definition format_duration (secs : Z) : string :=
  String.append (show_int (Z.quot secs 60)) (String ":"%char (show_int_02 (Z.rem secs 60))).

(** A reader for the "{minutes}:{seconds}" text, to state the round trip. *)
Definition digit_value (c : ascii) : option nat :=
  let n := nat_of_ascii c in
  if Nat.leb 48 n && Nat.leb n 57 then Some (n - 48) else None.

Fixpoint read_digits_from (acc : nat) (s : string) : option nat :=
  match s with
  | EmptyString => Some acc
  | String c r => match digit_value c with
                  | Some d => read_digits_from (acc * 10 + d) r
                  | None => None
                  end
  end.

Definition read_nat (s : string) : option nat :=
  match s with EmptyString => None | _ => read_digits_from 0 s end.

Definition read_duration (s : string) : option Z :=
  match split_on ":"%char s with
  | [m; ss] => match read_nat m, read_nat ss with
               | Some a, Some b => Some (Z.of_nat (a * 60 + b))
               | _, _ => None
               end
  | _ => None
  end.

(** [str::contains] for a string pattern. *)
Fixpoint contains (t q : string) : bool :=
  String.prefix q t || match t with EmptyString => false | String _ r => contains r q end.

(** [filtered_items_from_query(query, items)] without the [fzf] feature.
    [show] is the items' [Display]; [to_lowercase] is [str::to_lowercase],
    left as a parameter (the properties below hold for any such map). *)
Definition filtered_items_from_query {T : Type} (to_lowercase : string -> string)
    (show : T -> string) (query : string) (items : list T) : list T :=
  let query := to_lowercase query in
  filter (fun t =>
            if String.eqb query EmptyString then true
            else let t := to_lowercase (show t) in
                 forallb (fun q => contains t q)
                         (filter (fun q => negb (String.eqb q EmptyString))
                                 (split_on " "%char query)))
         items.

(** The strings of a list after its leading empty ones. *)
Fixpoint drop_leading_empty (l : list string) : list string :=
  match l with
  | [] => []
  | s :: r => if String.eqb s EmptyString then drop_leading_empty r else l
  end.

(** Whether, and how often, a character occurs in a string. *)
Fixpoint has_char (c : ascii) (s : string) : bool :=
  match s with
  | EmptyString => false
  | String a r => Ascii.eqb a c || has_char c r
  end.

Fixpoint count_char (c : ascii) (s : string) : nat :=
  match s with
  | EmptyString => 0
  | String a r => (if Ascii.eqb a c then 1 else 0) + count_char c r
  end.

End Utils.

(** ** The demo application state of [src/waveform_test/src/main.rs] *)

Module DemoApp.
Import Ascii.

(** [struct App]; its [start_time] only feeds the elapsed time of the beat
    clock and is left out. *)
Record App : Type := { current_color_scheme : nat; simulated_bpm : Q }.

(** [App::new()] *)
Definition new : App := {| current_color_scheme := 0; simulated_bpm := 120 |}.

(** [f64::min] and [f64::max] on finite values. *)
Definition f64_min (a b : Q) : Q := if Qle_bool a b then a else b.
Definition f64_max (a b : Q) : Q := if Qle_bool b a then a else b.

Definition next_color (app : App) : App :=
  {| current_color_scheme := (current_color_scheme app + 1) mod 6;
     simulated_bpm := simulated_bpm app |}.

Definition prev_color (app : App) : App :=
  {| current_color_scheme := if Nat.eqb (current_color_scheme app) 0 then 5
                             else current_color_scheme app - 1;
     simulated_bpm := simulated_bpm app |}.

Definition increase_bpm (app : App) : App :=
  {| current_color_scheme := current_color_scheme app;
     simulated_bpm := f64_min (fadd (simulated_bpm app) 10) 200 |}.

Definition decrease_bpm (app : App) : App :=
  {| current_color_scheme := current_color_scheme app;
     simulated_bpm := f64_max (fsub (simulated_bpm app) 10) 60 |}.

(** [App::color_scheme] *)
Definition color_scheme (app : App) : Waveform.ColorScheme :=
  match current_color_scheme app with
  | 0 => Waveform.Cyan | 1 => Waveform.Warm | 2 => Waveform.Purple
  | 3 => Waveform.Green | 4 => Waveform.Sunset | _ => Waveform.Ocean
  end%nat.

(** The key codes the loop distinguishes. *)
Inductive KeyCode : Type :=
| Char (c : ascii) | Right | Left | Up | Down | OtherKey.

(** One key event of the [main] loop; [None] is the [break] on 'q'. *)
Definition handle_key (k : KeyCode) (app : App) : option App :=
  match k with
  | Char c => if Ascii.eqb c "q"%char then None
              else if Ascii.eqb c "n"%char then Some (next_color app)
              else if Ascii.eqb c "p"%char then Some (prev_color app)
              else Some app
  | Right => Some (next_color app)
  | Left => Some (prev_color app)
  | Up => Some (increase_bpm app)
  | Down => Some (decrease_bpm app)
  | OtherKey => Some app
  end.

(** The state after a sequence of key events (up to a quit). *)
Fixpoint run_keys (keys : list KeyCode) (app : App) : App :=
  match keys with
  | [] => app
  | k :: ks => match handle_key k app with
               | None => app
               | Some app' => run_keys ks app'
               end
  end.

(** A BPM that the keys can produce: a multiple of 10 in [[60, 200]]. *)
Definition bpm_ok (b : Q) : Prop :=
  exists z : Z, b == inject_Z z /\ (60 <= z <= 200)%Z /\ (z mod 10 = 0)%Z.

Definition app_ok (a : App) : Prop := (current_color_scheme a < 6)%nat /\ bpm_ok (simulated_bpm a).

(** The position of a scheme in the cycle of [color_scheme]. *)
Definition scheme_index (s : Waveform.ColorScheme) : nat :=
  match s with
  | Waveform.Cyan => 0 | Waveform.Warm => 1 | Waveform.Purple => 2
  | Waveform.Green => 3 | Waveform.Sunset => 4 | Waveform.Ocean => 5
  end%nat.

End DemoApp.

(** The [dist] of cell [(x, y)] in the radial renderer. *)
Definition radial_cell_distance (width height x y : nat) : R :=
  (sqrt ((INR x - INR width / 2) * (INR x - INR width / 2)
         + (INR y - INR height / 2) * 2 * ((INR y - INR height / 2) * 2)))%R.

(** Channel-wise order on colours. *)
Definition color_le (c1 c2 : Color) : Prop :=
  match c1, c2 with
  | Rgb r1 g1 b1, Rgb r2 g2 b2 => (r1 <= r2 /\ g1 <= g2 /\ b1 <= b2)%Z
  | _, _ => False
  end.

(** Replacing the element at index [i] of a list (no change out of range). *)
Fixpoint replace_nth {A : Type} (i : nat) (a : A) (l : list A) : list A :=
  match l, i with
  | [], _ => []
  | _ :: r, 0%nat => a :: r
  | b :: r, S j => b :: replace_nth j a r
  end.

(** The image with pixel [(x, y)] set to [p]. *)
Definition set_pixel (img : DominantColor.image) (x y : nat) (p : rgb) : DominantColor.image :=
  replace_nth y (replace_nth x p (nth y img [])) img.

(** Channel-wise order on triples. *)
Definition rgb_le (c1 c2 : rgb) : Prop :=
  let '(r1, g1, b1) := c1 in let '(r2, g2, b2) := c2 in
  (r1 <= r2 /\ g1 <= g2 /\ b1 <= b2)%Z.

(** [v] lies between [x] and [y]. *)
Definition between2 (x y v : Z) : Prop := (Z.min x y <= v <= Z.max x y)%Z.

(** The multiples of 4 in [[s, s + len)]: the sampled coordinates. *)
Definition mult4_count (s len : nat) : nat :=
  length (filter (fun x => Nat.eqb (x mod 4) 0) (seq s len)).

(** The row index the linear renderer computes for column [x]. *)
Definition linear_row (height : nat) (beat_progress : R) (x : nat) : Z :=
  (F64R.as_usize (F64R.round
     (INR height / 2 + sin (INR x * (2 / 10) + beat_progress * (5 / 100))
                       * Rmax (INR height / 5) (15 / 10))))%R.

(** The tier factor of the [Custom] scheme as the spec lists it (levels
    0-3: 1.0, 0.85, 0.7, 0.5), to be compared with [custom_base]. *)
Definition custom_tier_factor (level : Z) : Q :=
  match level with 0%Z => 1 | 1%Z => 85#100 | 2%Z => 7#10 | _ => 5#10 end.

(** ** Binary64 rounding over the rationals *)

Module F64Facts.
Import Lqa.

Lemma two_neq_0 : ~ inject_Z 2 == 0.
Proof. unfold Qeq. cbn. discriminate. Qed.

Lemma one_lt_two : 1 < inject_Z 2.
Proof. unfold Qlt. cbn. lia. Qed.

Lemma pow2_pos (k : Z) : 0 < pow2 k.
Proof. apply Qpower_0_lt. unfold Qlt. cbn. lia. Qed.

Lemma pow2_plus (a b : Z) : pow2 (a + b) == pow2 a * pow2 b.
Proof. apply Qpower_plus, two_neq_0. Qed.

Lemma pow2_le (a b : Z) : (a <= b)%Z -> pow2 a <= pow2 b.
Proof. intros H. apply Qpower_le_compat_l; [exact H | apply Qlt_le_weak, one_lt_two]. Qed.

Lemma pow2_lt_inv (a b : Z) : pow2 a < pow2 b -> (a < b)%Z.
Proof. intros H. exact (Qpower_lt_compat_l_inv _ _ _ H one_lt_two). Qed.

Lemma pow2_nonneg_exp (k : Z) : (0 <= k)%Z -> pow2 k == inject_Z (2 ^ k).
Proof. intros H. unfold pow2. rewrite (Zpower_Qpower 2 k H). reflexivity. Qed.

Lemma pow2_opp_l (k : Z) : pow2 (- k) * pow2 k == 1.
Proof. rewrite <- pow2_plus. replace (- k + k)%Z with 0%Z by lia. reflexivity. Qed.

Lemma Qnum_den (n : Z) (d : positive) : (n # d) * inject_Z (Zpos d) == inject_Z n.
Proof. unfold Qeq. cbn. lia. Qed.

(** [flog2] is the floor of the binary logarithm. *)
Lemma flog2_spec (x : Q) : 0 < x -> pow2 (flog2 x) <= x /\ x < pow2 (flog2 x + 1).
Proof.
  destruct x as [n d]. intros Hx.
  assert (Hn : (0 < n)%Z) by (unfold Qlt in Hx; cbn in Hx; lia).
  unfold flog2. cbn [Qnum Qden]. cbv zeta.
  pose proof (Z.log2_nonneg n) as Ln. pose proof (Z.log2_nonneg (Zpos d)) as Ld.
  destruct (Z.log2_spec n Hn) as [N1 N2].
  destruct (Z.log2_spec (Zpos d) eq_refl) as [D1 D2].
  set (ln := Z.log2 n) in *. set (ld := Z.log2 (Zpos d)) in *.
  assert (QN1 : pow2 ln <= inject_Z n)
    by (rewrite pow2_nonneg_exp by lia; rewrite <- Zle_Qle; exact N1).
  assert (QN2 : inject_Z n < pow2 (ln + 1))
    by (rewrite pow2_nonneg_exp by lia; rewrite <- Zlt_Qlt; rewrite <- Z.add_1_r in N2; exact N2).
  assert (QD1 : pow2 ld <= inject_Z (Zpos d))
    by (rewrite pow2_nonneg_exp by lia; rewrite <- Zle_Qle; exact D1).
  assert (QD2 : inject_Z (Zpos d) < pow2 (ld + 1))
    by (rewrite pow2_nonneg_exp by lia; rewrite <- Zlt_Qlt; rewrite <- Z.add_1_r in D2; exact D2).
  pose proof (Qnum_den n d) as E.
  assert (Dp : 0 < inject_Z (Zpos d)) by (unfold Qlt; cbn; lia).
  (* the two bounds [2^(l-1) < x < 2^(l+1)] *)
  assert (Lo : pow2 (ln - ld - 1) < n # d).
  { apply (Qmult_lt_r _ _ (inject_Z (Zpos d)) Dp). rewrite E.
    apply Qlt_le_trans with (pow2 (ln - ld - 1) * pow2 (ld + 1)).
    - apply Qmult_lt_l; [apply pow2_pos | exact QD2].
    - rewrite <- pow2_plus. replace (ln - ld - 1 + (ld + 1))%Z with ln by lia. exact QN1. }
  assert (Hi : n # d < pow2 (ln - ld + 1)).
  { apply (Qmult_lt_r _ _ (inject_Z (Zpos d)) Dp). rewrite E.
    apply Qlt_le_trans with (pow2 (ln + 1)); [exact QN2|].
    replace (ln + 1)%Z with (ln - ld + 1 + ld)%Z at 1 by lia. rewrite pow2_plus.
    apply Qmult_le_l; [apply pow2_pos | exact QD1]. }
  destruct (Qle_bool (pow2 (ln - ld)) (n # d)) eqn:C.
  - apply Qle_bool_iff in C. split; [exact C | exact Hi].
  - assert (C' : ~ pow2 (ln - ld) <= n # d) by (intros F; apply Qle_bool_iff in F; congruence).
    apply Qnot_le_lt in C'. split.
    + apply Qlt_le_weak. exact Lo.
    + replace (ln - ld - 1 + 1)%Z with (ln - ld)%Z by lia. exact C'.
Qed.

Lemma flog2_ge (x : Q) (k : Z) : 0 < x -> pow2 k <= x -> (k <= flog2 x)%Z.
Proof.
  intros Hx H. destruct (flog2_spec x Hx) as [_ U].
  assert (k < flog2 x + 1)%Z; [apply pow2_lt_inv; apply Qle_lt_trans with x; assumption | lia].
Qed.

Lemma flog2_lt (x : Q) (k : Z) : 0 < x -> x < pow2 k -> (flog2 x < k)%Z.
Proof.
  intros Hx H. destruct (flog2_spec x Hx) as [L _].
  apply pow2_lt_inv. apply Qle_lt_trans with x; assumption.
Qed.

Lemma f64_exp_mono (x y : Q) : 0 < x -> x <= y -> (f64_exp x <= f64_exp y)%Z.
Proof.
  intros Hx H. unfold f64_exp.
  assert (flog2 x <= flog2 y)%Z; [|lia].
  apply flog2_ge; [apply Qlt_le_trans with x; assumption|].
  apply Qle_trans with x; [apply flog2_spec; exact Hx | exact H].
Qed.

(** The significand [x * 2^-e] of [x > 0] is below [2^53], and at least
    [2^52] above the subnormal range. *)
Lemma scaled_lt (x : Q) : 0 < x -> x * pow2 (- f64_exp x) < pow2 53.
Proof.
  intros Hx. destruct (flog2_spec x Hx) as [_ U].
  apply Qlt_le_trans with (pow2 (flog2 x + 1) * pow2 (- f64_exp x)).
  - apply Qmult_lt_r; [apply pow2_pos | exact U].
  - rewrite <- pow2_plus. apply pow2_le. unfold f64_exp. lia.
Qed.

Lemma scaled_ge (x : Q) : 0 < x -> (-1074 < f64_exp x)%Z -> pow2 52 <= x * pow2 (- f64_exp x).
Proof.
  intros Hx He. destruct (flog2_spec x Hx) as [L _].
  replace 52%Z with (flog2 x + - f64_exp x)%Z by (unfold f64_exp in *; lia).
  rewrite pow2_plus. apply Qmult_le_r; [apply pow2_pos | exact L].
Qed.

Lemma round_even_bounds (y : Q) : (Qfloor y <= round_even y <= Qfloor y + 1)%Z.
Proof.
  unfold round_even. cbv zeta.
  destruct (Qcompare (y - inject_Z (Qfloor y)) (1#2)); try destruct (Z.even (Qfloor y)); lia.
Qed.

Lemma round_even_int (n : Z) : round_even (inject_Z n) = n.
Proof.
  unfold round_even. cbv zeta. rewrite Qfloor_Z.
  destruct (Qcompare_spec (inject_Z n - inject_Z n) (1#2)) as [E|E|E].
  - exfalso. lra.
  - reflexivity.
  - exfalso. lra.
Qed.

Lemma round_even_mono (y1 y2 : Q) : y1 <= y2 -> (round_even y1 <= round_even y2)%Z.
Proof.
  intros H. pose proof (Qfloor_resp_le _ _ H) as F.
  destruct (Z.eq_dec (Qfloor y1) (Qfloor y2)) as [E|NE].
  - unfold round_even. cbv zeta. rewrite <- E.
    pose proof (Qfloor_le y1). pose proof (Qfloor_le y2).
    destruct (Qcompare_spec (y1 - inject_Z (Qfloor y1)) (1#2));
      destruct (Qcompare_spec (y2 - inject_Z (Qfloor y1)) (1#2));
      try destruct (Z.even (Qfloor y1)); try lia; exfalso; lra.
  - pose proof (round_even_bounds y1). pose proof (round_even_bounds y2). lia.
Qed.

Lemma round_even_Qeq (y1 y2 : Q) : y1 == y2 -> round_even y1 = round_even y2.
Proof.
  intros H. apply Z.le_antisymm; apply round_even_mono; rewrite H; apply Qle_refl.
Qed.

Lemma round_pos_nonneg (x : Q) : 0 < x -> 0 <= round_pos x.
Proof.
  intros Hx. unfold round_pos. cbv zeta.
  pose proof (pow2_pos (- f64_exp x)). pose proof (pow2_pos (f64_exp x)).
  assert (0 <= inject_Z (round_even (x * pow2 (- f64_exp x)))).
  { change 0 with (inject_Z 0). rewrite <- Zle_Qle.
    pose proof (round_even_bounds (x * pow2 (- f64_exp x))).
    assert (S : 0 <= x * pow2 (- f64_exp x)) by (apply Qmult_le_0_compat; lra).
    pose proof (Qfloor_resp_le 0 _ S) as F. change (Qfloor 0) with 0%Z in F. lia. }
  apply Qmult_le_0_compat; lra.
Qed.

Lemma round_pos_mono (x y : Q) : 0 < x -> x <= y -> round_pos x <= round_pos y.
Proof.
  intros Hx H. assert (Hy : 0 < y) by lra.
  pose proof (f64_exp_mono x y Hx H) as Ee. unfold round_pos. cbv zeta.
  destruct (Z.eq_dec (f64_exp x) (f64_exp y)) as [E|NE].
  - rewrite <- E. apply Qmult_le_r; [apply pow2_pos|].
    rewrite <- Zle_Qle. apply round_even_mono.
    apply Qmult_le_r; [apply pow2_pos | exact H].
  - assert (A : (round_even (x * pow2 (- f64_exp x)) <= 2 ^ 53)%Z).
    { rewrite <- (round_even_int (2 ^ 53)). apply round_even_mono.
      apply Qlt_le_weak. rewrite <- (pow2_nonneg_exp 53) by lia. apply scaled_lt, Hx. }
    assert (B : (2 ^ 52 <= round_even (y * pow2 (- f64_exp y)))%Z).
    { rewrite <- (round_even_int (2 ^ 52)) at 1. apply round_even_mono.
      rewrite <- (pow2_nonneg_exp 52) by lia. apply scaled_ge; [exact Hy|].
      unfold f64_exp at 1 in Ee. unfold f64_exp at 1 in NE. lia. }
    apply Qle_trans with (pow2 53 * pow2 (f64_exp x)).
    + apply Qmult_le_r; [apply pow2_pos|].
      rewrite (pow2_nonneg_exp 53) by lia. rewrite <- Zle_Qle. exact A.
    + apply Qle_trans with (pow2 52 * pow2 (f64_exp y)).
      * rewrite <- !pow2_plus. apply pow2_le. lia.
      * apply Qmult_le_r; [apply pow2_pos|].
        rewrite (pow2_nonneg_exp 52) by lia. rewrite <- Zle_Qle. exact B.
Qed.

Lemma f64_round_pos (x : Q) : 0 < x -> f64_round x = round_pos x.
Proof.
  intros H. unfold f64_round. destruct (Qle_bool x 0) eqn:E; [|reflexivity].
  apply Qle_bool_iff in E. exfalso. lra.
Qed.

Lemma f64_round_neg (x : Q) : x < 0 -> f64_round x = - round_pos (- x).
Proof.
  intros H. unfold f64_round. destruct (Qle_bool x 0) eqn:E.
  - destruct (Qle_bool 0 x) eqn:E'; [|reflexivity]. apply Qle_bool_iff in E'. exfalso. lra.
  - assert (x <= 0) by lra. apply Qle_bool_iff in H0. congruence.
Qed.

Lemma f64_round_zero (x : Q) : x == 0 -> f64_round x = 0.
Proof.
  intros H. unfold f64_round.
  assert (A : x <= 0) by lra. assert (B : 0 <= x) by lra.
  apply Qle_bool_iff in A. apply Qle_bool_iff in B. rewrite A, B. reflexivity.
Qed.

(** Rounding is monotone. *)
Lemma f64_round_mono (x y : Q) : x <= y -> f64_round x <= f64_round y.
Proof.
  intros H.
  destruct (Q_dec x 0) as [[Nx|Px]|Zx]; destruct (Q_dec y 0) as [[Ny|Py]|Zy];
    try (exfalso; lra);
    repeat match goal with
           | P : 0 < ?z |- _ => rewrite (f64_round_pos z P); pose proof (round_pos_nonneg z P)
           | N : ?z < 0 |- _ => rewrite (f64_round_neg z N); pose proof (round_pos_nonneg (- z) ltac:(lra))
           | Z : ?z == 0 |- _ => rewrite (f64_round_zero z Z)
           end; try lra.
  all: first [ apply round_pos_mono; lra
             | assert (round_pos (- y) <= round_pos (- x)) by (apply round_pos_mono; lra); lra ].
Qed.

Lemma f64_round_Qeq (x y : Q) : x == y -> f64_round x == f64_round y.
Proof.
  intros H. apply Qle_antisym; apply f64_round_mono; rewrite H; apply Qle_refl.
Qed.

(** A non-negative integer below [2^53] is a binary64 value. *)
Lemma f64_round_int (n : Z) : (0 <= n < 9007199254740992)%Z -> f64_round (inject_Z n) == inject_Z n.
Proof.
  intros Hn. destruct (Z.eq_dec n 0) as [->|Nz]; [reflexivity|].
  assert (Hx : 0 < inject_Z n) by (change 0 with (inject_Z 0); rewrite <- Zlt_Qlt; lia).
  rewrite (f64_round_pos _ Hx). unfold round_pos. cbv zeta.
  assert (L : (flog2 (inject_Z n) < 53)%Z).
  { apply flog2_lt; [exact Hx|]. rewrite pow2_nonneg_exp by lia. rewrite <- Zlt_Qlt. cbn. lia. }
  set (e := f64_exp (inject_Z n)).
  assert (Le : (e <= 0)%Z) by (unfold e, f64_exp; lia).
  assert (S : inject_Z n * pow2 (- e) == inject_Z (n * 2 ^ (- e)))
    by (rewrite pow2_nonneg_exp by lia; rewrite inject_Z_mult; reflexivity).
  rewrite (round_even_Qeq _ _ S), round_even_int, inject_Z_mult.
  rewrite <- pow2_nonneg_exp by lia.
  rewrite <- Qmult_assoc, pow2_opp_l. apply Qmult_1_r.
Qed.

Lemma f64_round_0 : f64_round 0 = 0.
Proof. reflexivity. Qed.

(** The literals of the [Custom] arm are the doubles [0x3FEB333333333333],
    [0x3FE6666666666666] and [0.5]; [90.0 * 0.7] is the double
    [0x404F7FFFFFFFFFFF = 62.99999999999999]. *)
Lemma f64_literal_values :
  f64_round (85#100) == 7656119366529843 # 9007199254740992
  /\ f64_round (7#10) == 3152519739159347 # 4503599627370496
  /\ f64_round (5#10) == 1 # 2
  /\ fmul 90 (f64_round (7#10)) == 8866461766385663 # 140737488355328.
Proof. vm_compute. repeat split; reflexivity. Qed.

End F64Facts.

(** ** Facts about the [f64 as u8] cast over the rationals *)

Module CastFacts.
Import Lqa.

Lemma qtrunc_nonneg (x : Q) : 0 <= x -> trunc x = Qfloor x.
Proof. intros H. unfold trunc. apply Qle_bool_iff in H. rewrite H. reflexivity. Qed.

Lemma Qfloor_nonneg (x : Q) : 0 <= x -> (0 <= Qfloor x)%Z.
Proof. intros H. apply Qfloor_resp_le in H. exact H. Qed.

Lemma Qfloor_le_int (x : Q) (c : Z) : x <= inject_Z c -> (Qfloor x <= c)%Z.
Proof. intros H. apply Qfloor_resp_le in H. rewrite Qfloor_Z in H. exact H. Qed.

Lemma as_u8_range (x : Q) : is_u8 (as_u8 x).
Proof. unfold is_u8, as_u8. lia. Qed.

(** On [0, 255] the cast is the floor. *)
Lemma as_u8_floor (x : Q) : 0 <= x -> x <= inject_Z 255 -> as_u8 x = Qfloor x.
Proof.
  intros H0 H1. unfold as_u8. rewrite (qtrunc_nonneg x H0).
  pose proof (Qfloor_nonneg x H0). pose proof (Qfloor_le_int x 255 H1). lia.
Qed.

Lemma of_int_bounds (c : Z) : is_u8 c -> 0 <= of_int c /\ of_int c <= 255.
Proof.
  unfold is_u8, of_int. intros [H0 H1]. rewrite Zle_Qle in H0, H1. split; assumption.
Qed.

Lemma as_u8_of_int (c : Z) : is_u8 c -> as_u8 (of_int c) = c.
Proof.
  intros Hc. pose proof (of_int_bounds c Hc) as [H0 H1].
  rewrite as_u8_floor by assumption. apply Qfloor_Z.
Qed.

Lemma Qfloor_Qeq (x y : Q) : x == y -> Qfloor x = Qfloor y.
Proof.
  intros H. apply Z.le_antisymm; apply Qfloor_resp_le; rewrite H; apply Qle_refl.
Qed.

(** A channel scaled by an intensity in [0, 1] stays between 0 and itself. *)
Lemma scaled_channel_bounds (c : Z) (i : Q) :
  is_u8 c -> 0 <= i <= 1 -> 0 <= of_int c * i /\ of_int c * i <= of_int c.
Proof.
  intros Hc [Hi0 Hi1]. pose proof (of_int_bounds c Hc) as [H0 H1]. nra.
Qed.

Lemma qtrunc_Qeq (x y : Q) : x == y -> trunc x = trunc y.
Proof.
  intros H. unfold trunc.
  destruct (Qle_bool 0 x) eqn:Ex, (Qle_bool 0 y) eqn:Ey.
  - apply Qfloor_Qeq. exact H.
  - apply Qle_bool_iff in Ex. rewrite H in Ex. apply Qle_bool_iff in Ex. congruence.
  - apply Qle_bool_iff in Ey. rewrite <- H in Ey. apply Qle_bool_iff in Ey. congruence.
  - f_equal. apply Qfloor_Qeq. rewrite H. reflexivity.
Qed.

Lemma as_u8_Qeq (x y : Q) : x == y -> as_u8 x = as_u8 y.
Proof. intros H. unfold as_u8. rewrite (qtrunc_Qeq x y H). reflexivity. Qed.

Lemma qtrunc_mono (x y : Q) : x <= y -> (trunc x <= trunc y)%Z.
Proof.
  intros H. unfold trunc.
  destruct (Qle_bool 0 x) eqn:Ex, (Qle_bool 0 y) eqn:Ey.
  - apply Qfloor_resp_le. exact H.
  - apply Qle_bool_iff in Ex. assert (0 <= y) by lra. apply Qle_bool_iff in H0. congruence.
  - apply Qle_bool_iff in Ey. assert (Hx : ~ 0 <= x) by (intros F; apply Qle_bool_iff in F; congruence).
    assert (0 <= - x) by lra. pose proof (Qfloor_nonneg (- x) H0).
    pose proof (Qfloor_nonneg y Ey). lia.
  - assert (- y <= - x) by lra. pose proof (Qfloor_resp_le _ _ H0). lia.
Qed.

Lemma as_u8_mono (x y : Q) : x <= y -> (as_u8 x <= as_u8 y)%Z.
Proof. intros H. unfold as_u8. pose proof (qtrunc_mono x y H). lia. Qed.

End CastFacts.

(** ** The colour resolver and the palette deriver *)

Module ColorProofs.
Import Lqa CastFacts Visualizations.

Ltac case_level :=
  repeat match goal with
         | |- context [match ?l with Z0 => _ | Zpos _ => _ | Zneg _ => _ end] => destruct l
         | |- context [match ?p with xI _ => _ | xO _ => _ | xH => _ end] => destruct p
         end.

Lemma builtin_base_in_range (scheme : ColorScheme) (tbl : Z -> rgb) (level : Z) :
  builtin_base scheme = Some tbl -> rgb_in_range (tbl level).
Proof.
  intros H. destruct scheme; try discriminate H; injection H as <-;
    unfold cyan_base, warm_base, purple_base, green_base, sunset_base, ocean_base;
    case_level; cbn; unfold is_u8; lia.
Qed.

Lemma builtin_get_color (scheme : ColorScheme) (tbl : Z -> rgb) (intensity : Q)
    (level : Z) (album_color : option rgb) :
  builtin_base scheme = Some tbl ->
  get_color_for_scheme scheme intensity level album_color = apply_intensity (tbl level) intensity.
Proof. intros H. destruct scheme; try discriminate H; injection H as <-; reflexivity. Qed.

Lemma apply_intensity_in_range (c : rgb) (intensity : Q) :
  color_in_range (apply_intensity c intensity).
Proof. destruct c as [[c0 c1] c2]. cbn [apply_intensity color_in_range]. auto using as_u8_range. Qed.

(** A byte channel times an intensity in [0, 1], rounded, stays between 0
    and the channel. *)
Lemma fmul_channel (c : Z) (i : Q) :
  is_u8 c -> 0 <= i <= 1 -> 0 <= fmul (of_int c) i /\ fmul (of_int c) i <= of_int c.
Proof.
  intros Hc Hi. destruct (scaled_channel_bounds c i Hc Hi) as [L U]. unfold fmul. split.
  - pose proof (F64Facts.f64_round_mono _ _ L) as M. rewrite F64Facts.f64_round_0 in M. exact M.
  - pose proof (F64Facts.f64_round_mono _ _ U) as M.
    unfold is_u8 in Hc. unfold of_int in *. rewrite (F64Facts.f64_round_int c) in M by lia. exact M.
Qed.

Lemma as_u8_fmul_channel (c : Z) (i : Q) :
  is_u8 c -> 0 <= i <= 1 ->
  as_u8 (fmul (of_int c) i) = trunc (fmul (of_int c) i) /\ (trunc (fmul (of_int c) i) <= c)%Z.
Proof.
  intros Hc Hi. destruct (fmul_channel c i Hc Hi) as [L U].
  pose proof (of_int_bounds c Hc) as [_ U'].
  rewrite (qtrunc_nonneg _ L). split.
  - apply as_u8_floor; [exact L | apply (Qle_trans _ _ _ U U')].
  - apply Qfloor_le_int. exact U.
Qed.

(** Scaling a byte by the literal [1.0] gives it back. *)
Lemma fmul_one (c : Z) : is_u8 c -> as_u8 (fmul (of_int c) (f64_round 1)) = c.
Proof.
  intros Hc. unfold fmul.
  assert (E : of_int c * f64_round 1 == of_int c)
    by (rewrite (F64Facts.f64_round_int 1) by lia; apply Qmult_1_r).
  rewrite (as_u8_Qeq _ _ (F64Facts.f64_round_Qeq _ _ E)).
  unfold is_u8 in Hc. unfold of_int at 1. rewrite (as_u8_Qeq _ _ (F64Facts.f64_round_int c ltac:(lia))).
  apply as_u8_of_int. unfold is_u8. exact Hc.
Qed.

Lemma blend_floor (x y : Z) (wx wy : Q) :
  is_u8 x -> is_u8 y -> 0 <= wx -> 0 <= wy -> wx + wy == 1 ->
  Z.min (as_u8 (of_int x * wx + of_int y * wy)) 255 = Qfloor (of_int x * wx + of_int y * wy).
Proof.
  intros Hx Hy Hwx Hwy Hw.
  pose proof (of_int_bounds x Hx) as [Hx0 Hx1]. pose proof (of_int_bounds y Hy) as [Hy0 Hy1].
  assert (H0 : 0 <= of_int x * wx + of_int y * wy) by nra.
  assert (H1 : of_int x * wx + of_int y * wy <= inject_Z 255).
  { change (inject_Z 255) with (255 # 1). nra. }
  rewrite (as_u8_floor _ H0 H1).
  pose proof (Qfloor_le_int _ 255 H1). lia.
Qed.

(** C4: [generate_color_palette] returns six colours, each channel a byte,
    in the fixed order base, complement [255 - c], the two [0.8/0.2] blends
    in two channel-rotation orders, lightened by [+60] saturating at 255 and
    darkened by [-60] saturating at 0. *)
Theorem generate_color_palette_six_colors (r g b : Z) :
  is_u8 r -> is_u8 g -> is_u8 b ->
  let p := colors (generate_color_palette r g b) in
  p = [ (r, g, b);
        (255 - r, 255 - g, 255 - b);
        (Qfloor (of_int r * (8#10) + of_int g * (2#10)),
         Qfloor (of_int g * (8#10) + of_int b * (2#10)),
         Qfloor (of_int b * (8#10) + of_int r * (2#10)));
        (Qfloor (of_int r * (2#10) + of_int b * (8#10)),
         Qfloor (of_int g * (2#10) + of_int r * (8#10)),
         Qfloor (of_int b * (2#10) + of_int g * (8#10)));
        (Z.min 255 (r + 60), Z.min 255 (g + 60), Z.min 255 (b + 60));
        (Z.max 0 (r - 60), Z.max 0 (g - 60), Z.max 0 (b - 60)) ]%Z
  /\ length p = 6%nat
  /\ Forall rgb_in_range p.
Proof.
  intros Hr Hg Hb p.
  assert (E : p = [ (r, g, b);
        (255 - r, 255 - g, 255 - b);
        (Qfloor (of_int r * (8#10) + of_int g * (2#10)),
         Qfloor (of_int g * (8#10) + of_int b * (2#10)),
         Qfloor (of_int b * (8#10) + of_int r * (2#10)));
        (Qfloor (of_int r * (2#10) + of_int b * (8#10)),
         Qfloor (of_int g * (2#10) + of_int r * (8#10)),
         Qfloor (of_int b * (2#10) + of_int g * (8#10)));
        (Z.min 255 (r + 60), Z.min 255 (g + 60), Z.min 255 (b + 60));
        (Z.max 0 (r - 60), Z.max 0 (g - 60), Z.max 0 (b - 60)) ]%Z).
  { subst p. unfold generate_color_palette. cbv beta zeta iota delta [colors].
    unfold u8_saturating_sub, u8_saturating_add.
    rewrite !blend_floor by (assumption || (unfold Qle; cbn; lia) || reflexivity).
    unfold is_u8 in *.
    rewrite (Z.max_r 0 (255 - r)), (Z.max_r 0 (255 - g)), (Z.max_r 0 (255 - b)) by lia.
    reflexivity. }
  split; [exact E|]. split; [rewrite E; reflexivity|].
  rewrite E.
  assert (B : forall x y wx wy, is_u8 x -> is_u8 y -> 0 <= wx -> 0 <= wy -> wx + wy == 1 ->
              is_u8 (Qfloor (of_int x * wx + of_int y * wy))).
  { intros x y wx wy Hx Hy H1 H2 H3. rewrite <- blend_floor by assumption.
    pose proof (as_u8_range (of_int x * wx + of_int y * wy)). unfold is_u8 in *. lia. }
  assert (W82 : 0 <= 8#10 /\ 0 <= 2#10 /\ (8#10) + (2#10) == 1) by (split; [|split]; reflexivity || (unfold Qle; cbn; lia)).
  assert (W28 : 0 <= 2#10 /\ 0 <= 8#10 /\ (2#10) + (8#10) == 1) by (split; [|split]; reflexivity || (unfold Qle; cbn; lia)).
  destruct W82 as (W1 & W2 & W3). destruct W28 as (W4 & W5 & W6).
  pose proof (B r g _ _ Hr Hg W1 W2 W3). pose proof (B g b _ _ Hg Hb W1 W2 W3).
  pose proof (B b r _ _ Hb Hr W1 W2 W3). pose proof (B r b _ _ Hr Hb W4 W5 W6).
  pose proof (B g r _ _ Hg Hr W4 W5 W6). pose proof (B b g _ _ Hb Hg W4 W5 W6).
  unfold rgb_in_range, is_u8 in *.
  repeat constructor; lia.
Qed.

Lemma generate_color_palette_six_colors_witness :
  is_u8 100 /\ is_u8 50 /\ is_u8 200 /\
  length (colors (generate_color_palette 100 50 200)) = 6%nat.
Proof.
  assert (H1 : is_u8 100) by (unfold is_u8; lia).
  assert (H2 : is_u8 50) by (unfold is_u8; lia).
  assert (H3 : is_u8 200) by (unfold is_u8; lia).
  split; [exact H1|]. split; [exact H2|]. split; [exact H3|].
  exact (proj1 (proj2 (generate_color_palette_six_colors 100 50 200 H1 H2 H3))).
Defined.

(** C5: [Custom] without an album colour resolves exactly like [Cyan], for
    every intensity and level; in particular at intensity 1.0 and level 0. *)
Theorem custom_without_album_is_cyan :
  (forall (intensity : Q) (level : Z),
      get_color_for_scheme Custom intensity level None
      = get_color_for_scheme Cyan intensity level None)
  /\ get_color_for_scheme Custom 1 0 None = get_color_for_scheme Cyan 1 0 None
  /\ get_color_for_scheme Cyan 1 0 None = Rgb 0 255 255.
Proof. split; [intros; reflexivity | split; reflexivity]. Qed.


(** C6: with an album colour [(r, g, b)], [Custom] scales each channel by
    the tier factor (1.0, 0.85, 0.7, 0.5 for levels 0, 1, 2 and every other
    level), truncates, then multiplies by the intensity and truncates again.
    Both products are [f64] products: the factor is the [f64] literal, the
    product is rounded to binary64 and the cast truncates it.  [(100, 50,
    200)] at intensity 1.0 and level 0 comes back unchanged; [90 * 0.7] is
    [62.99999999999999] in [f64], so a channel 90 gives 62 at level 2. *)
Theorem custom_album_tiers (r g b level : Z) (intensity : Q) :
  is_u8 r -> is_u8 g -> is_u8 b ->
  get_color_for_scheme Custom intensity level (Some (r, g, b))
  = Rgb (as_u8 (fmul (of_int (as_u8 (fmul (of_int r) (f64_round (custom_tier_factor level))))) intensity))
        (as_u8 (fmul (of_int (as_u8 (fmul (of_int g) (f64_round (custom_tier_factor level))))) intensity))
        (as_u8 (fmul (of_int (as_u8 (fmul (of_int b) (f64_round (custom_tier_factor level))))) intensity))
  /\ get_color_for_scheme Custom 1 0 (Some (100, 50, 200)%Z) = Rgb 100 50 200
  /\ get_color_for_scheme Custom 1 2 (Some (90, 90, 90)%Z) = Rgb 62 62 62.
Proof.
  intros Hr Hg Hb. split; [|split; vm_compute; reflexivity].
  cbn [get_color_for_scheme]. unfold custom_base, custom_tier_factor.
  destruct level as [|[p|[]|]|p]; try reflexivity.
  (* level 0: the album colour itself, which is its own scaling by 1.0 *)
  cbn [apply_intensity]. rewrite (fmul_one r Hr), (fmul_one g Hg), (fmul_one b Hb). reflexivity.
Qed.

Lemma custom_album_tiers_witness :
  is_u8 100 /\ is_u8 50 /\ is_u8 200 /\
  get_color_for_scheme Custom (1#2) 1 (Some (100, 50, 200)%Z)
  = Rgb (as_u8 (fmul (of_int (as_u8 (fmul (of_int 100) (f64_round (custom_tier_factor 1))))) (1#2)))
        (as_u8 (fmul (of_int (as_u8 (fmul (of_int 50) (f64_round (custom_tier_factor 1))))) (1#2)))
        (as_u8 (fmul (of_int (as_u8 (fmul (of_int 200) (f64_round (custom_tier_factor 1))))) (1#2))).
Proof.
  assert (H1 : is_u8 100) by (unfold is_u8; lia).
  assert (H2 : is_u8 50) by (unfold is_u8; lia).
  assert (H3 : is_u8 200) by (unfold is_u8; lia).
  split; [exact H1|]. split; [exact H2|]. split; [exact H3|].
  exact (proj1 (custom_album_tiers 100 50 200 1 (1#2) H1 H2 H3)).
Defined.

(** C9: for a built-in scheme, a level and an intensity in [0, 1], each
    channel is the level's base channel times the intensity (an [f64]
    product, rounded to binary64), truncated, and never above the base
    channel: the cast never saturates there. *)
Theorem builtin_scheme_scales_base (scheme : ColorScheme) (tbl : Z -> rgb)
    (level : Z) (intensity : Q) (album_color : option rgb) :
  builtin_base scheme = Some tbl -> 0 <= intensity <= 1 ->
  let '(b0, b1, b2) := tbl level in
  get_color_for_scheme scheme intensity level album_color
  = Rgb (trunc (fmul (of_int b0) intensity)) (trunc (fmul (of_int b1) intensity))
        (trunc (fmul (of_int b2) intensity))
  /\ (trunc (fmul (of_int b0) intensity) <= b0)%Z
  /\ (trunc (fmul (of_int b1) intensity) <= b1)%Z
  /\ (trunc (fmul (of_int b2) intensity) <= b2)%Z.
Proof.
  intros Hs Hi. rewrite (builtin_get_color scheme tbl intensity level album_color Hs).
  pose proof (builtin_base_in_range scheme tbl level Hs) as Hr.
  destruct (tbl level) as [[b0 b1] b2]. destruct Hr as (H0 & H1 & H2).
  destruct (as_u8_fmul_channel b0 intensity H0 Hi) as [E0 L0],
           (as_u8_fmul_channel b1 intensity H1 Hi) as [E1 L1],
           (as_u8_fmul_channel b2 intensity H2 Hi) as [E2 L2].
  cbn [apply_intensity]. rewrite E0, E1, E2. auto.
Qed.

Lemma builtin_scheme_scales_base_witness :
  builtin_base Ocean = Some ocean_base /\ 0 <= f64_round (7#10) <= 1 /\
  get_color_for_scheme Ocean (f64_round (7#10)) 2 None
  = Rgb (trunc (fmul (of_int 10) (f64_round (7#10))))
        (trunc (fmul (of_int 80) (f64_round (7#10))))
        (trunc (fmul (of_int 180) (f64_round (7#10)))).
Proof.
  assert (Hs : builtin_base Ocean = Some ocean_base) by reflexivity.
  assert (Hi : 0 <= f64_round (7#10) <= 1)
    by (split; apply Qle_bool_iff; vm_compute; reflexivity).
  split; [exact Hs|]. split; [exact Hi|].
  exact (proj1 (builtin_scheme_scales_base Ocean ocean_base 2 (f64_round (7#10)) None Hs Hi)).
Defined.

(** C10: every resolver (both copies) is total and yields bytes for every
    scheme, level and intensity, also outside [0, 1]: the cast saturates,
    so 1.5 or 2.0 give 255 (not a wrapped value) and -1.0 gives 0. *)
Theorem resolver_saturates :
  (forall scheme intensity level album_color,
      color_in_range (get_color_for_scheme scheme intensity level album_color))
  /\ (forall scheme intensity level,
      color_in_range (Waveform.get_color_for_scheme scheme intensity level))
  /\ get_color_for_scheme Cyan 2 0 None = Rgb 0 255 255
  /\ get_color_for_scheme Warm (-1) 0 None = Rgb 0 0 0
  /\ get_color_for_scheme Custom (3#2) 0 (Some (200, 100, 250)%Z) = Rgb 255 150 255
  /\ Waveform.get_color_for_scheme Waveform.Cyan (3#2) 0 = Rgb 0 255 255.
Proof.
  split; [|split; [|repeat split; reflexivity]].
  - intros scheme intensity level album_color.
    destruct scheme; try apply apply_intensity_in_range.
    destruct album_color as [[[r g] b]|]; apply apply_intensity_in_range.
  - intros scheme intensity level. destruct scheme; apply apply_intensity_in_range.
Qed.

End ColorProofs.

(** ** Facts about the [f64] operations over the reals *)

Module RealFacts.
Import Lra F64R.
Local Open Scope R_scope.

Lemma Int_part_spec (x : R) (k : Z) : IZR k <= x < IZR k + 1 -> Int_part x = k.
Proof.
  intros [H0 H1]. unfold Int_part.
  rewrite <- (tech_up x (k + 1)); [lia| |]; rewrite plus_IZR; lra.
Qed.

Lemma Int_part_IZR (k : Z) : Int_part (IZR k) = k.
Proof. apply Int_part_spec. lra. Qed.

Lemma trunc_nonneg (x : R) : 0 <= x -> trunc x = Int_part x.
Proof. intros H. unfold trunc. destruct (Rle_dec 0 x); [reflexivity | lra]. Qed.

Lemma trunc_neg (x : R) : x < 0 -> trunc x = (- Int_part (- x))%Z.
Proof. intros H. unfold trunc. destruct (Rle_dec 0 x); [lra | reflexivity]. Qed.

(** For a non-negative dividend and a positive divisor, [%] lands in
    [[0, y)]. *)
Lemma frem_nonneg_bounds (x y : R) : 0 <= x -> 0 < y -> 0 <= frem x y < y.
Proof.
  intros Hx Hy. unfold frem.
  assert (Hq : 0 <= x / y) by (apply Rmult_le_pos; [lra | left; apply Rinv_0_lt_compat; lra]).
  rewrite (trunc_nonneg _ Hq).
  destruct (base_Int_part (x / y)) as [L U].
  assert (E : x = (x / y) * y) by (field; lra).
  split.
  - assert (IZR (Int_part (x / y)) * y <= (x / y) * y) by (apply Rmult_le_compat_r; lra). lra.
  - assert ((x / y) * y < (IZR (Int_part (x / y)) + 1) * y) by (apply Rmult_lt_compat_r; lra). lra.
Qed.

Lemma sqrt_square_sum_comm (a b : R) : sqrt ((- a) * (- a) + b * b) = sqrt (a * a + b * b).
Proof. f_equal. ring. Qed.

End RealFacts.

(** ** The beat clock and the radial renderer *)

Module RadialProofs.
Import Lra F64R RealFacts RadialWave.
Local Open Scope R_scope.

(** C1: for [elapsed >= 0] and [bpm > 0] the beat phase
    [(elapsed * bpm / 60) % 1.0] lies in [[0, 1)]. *)
Theorem beat_progress_in_unit (elapsed bpm : R) :
  0 <= elapsed -> 0 < bpm -> 0 <= beat_progress elapsed bpm < 1.
Proof.
  intros He Hb. unfold beat_progress. apply frem_nonneg_bounds; [|lra].
  unfold Rdiv. apply Rmult_le_pos; [apply Rmult_le_pos; lra | lra].
Qed.

Lemma beat_progress_in_unit_witness :
  0 <= 3 /\ 0 < 120 /\ 0 <= beat_progress 3 120 < 1.
Proof.
  assert (H1 : 0 <= 3) by lra. assert (H2 : 0 < 120) by lra.
  split; [exact H1|]. split; [exact H2|]. exact (beat_progress_in_unit 3 120 H1 H2).
Defined.

Lemma cell_intensity_at (w h : nat) (bp : R) (x y : nat) (d : R) :
  sqrt ((INR x - INR w / 2) * (INR x - INR w / 2)
        + (INR y - INR h / 2) * 2 * ((INR y - INR h / 2) * 2)) = d ->
  cell_intensity w h bp x y
  = if Rlt_dec (frem (d - bp * 15) 5) 1 then 1 - frem (d - bp * 15) 5 else 0.
Proof. intros H. unfold cell_intensity. cbv zeta. rewrite H. reflexivity. Qed.

Lemma frem_at (x y : R) (k : Z) : trunc (x / y) = k -> frem x y = x - IZR k * y.
Proof. intros H. unfold frem. rewrite H. reflexivity. Qed.

(** C2 (defect): the intensity is not confined to [[0, 1]].  With
    [elapsed = 0.25 s] at 120 BPM the beat progress is 0.5, so
    [wave_offset = 7.5]; at the centre cell (10, 5) of a 20 × 10 area
    [dist = 0] and [(0 - 7.5) % 5 = -2.5] (Rust's [%] keeps the sign of the
    dividend), hence [intensity = 1 - (-2.5) = 3.5], passed on to the
    resolver at level 0. *)
Theorem radial_intensity_above_one :
  beat_progress (1 / 4) 120 = 1 / 2
  /\ cell_intensity 20 10 (1 / 2) 10 5 = 7 / 2
  /\ cell_band (7 / 2) = (Solid, Some (0%Z, 7 / 2)).
Proof.
  split; [|split].
  - unfold beat_progress.
    rewrite (frem_at _ _ 0); [lra|].
    rewrite trunc_nonneg by lra. apply Int_part_spec. lra.
  - rewrite (cell_intensity_at _ _ _ _ _ 0).
    + rewrite (frem_at _ _ (-1)).
      * destruct (Rlt_dec _ 1); lra.
      * rewrite trunc_neg by lra. rewrite (Int_part_spec _ 1); [reflexivity | lra].
    + replace (INR 10) with 10 by (rewrite INR_IZR_INZ; reflexivity).
      replace (INR 20) with 20 by (rewrite INR_IZR_INZ; reflexivity).
      replace (INR 5) with 5 by (rewrite INR_IZR_INZ; reflexivity).
      replace (_ + _) with 0 by lra. apply sqrt_0.
  - unfold cell_band. destruct (Rlt_dec (7 / 10) (7 / 2)); [reflexivity | lra].
Qed.

(** C3 as stated fails: mirroring column [x] to [width - 1 - x] does not
    preserve the intensity.  In a 2 × 2 area at beat progress 0, cell
    (0, 1) is at distance 1 from the centre (1, 1) and gets intensity 0,
    while its mirror (1, 1) is at distance 0 and gets intensity 1. *)
Lemma radial_mirror_counterexample :
  ~ (forall (n x y : nat), (x < n)%nat -> (y < n)%nat ->
       cell_intensity n n 0 x y = cell_intensity n n 0 (n - 1 - x) y).
Proof.
  intros H. specialize (H 2%nat 0%nat 1%nat ltac:(lia) ltac:(lia)).
  replace (2 - 1 - 0)%nat with 1%nat in H by reflexivity.
  assert (I2 : INR 2 = 2) by (rewrite INR_IZR_INZ; reflexivity).
  rewrite (cell_intensity_at _ _ _ _ _ 1), (cell_intensity_at _ _ _ _ _ 0) in H.
  - rewrite (frem_at _ _ 0), (frem_at (0 - 0 * 15) 5 0) in H.
    + destruct (Rlt_dec _ 1), (Rlt_dec _ 1); lra.
    + rewrite trunc_nonneg by lra. apply Int_part_spec. lra.
    + rewrite trunc_nonneg by lra. apply Int_part_spec. lra.
  - rewrite I2. cbn [INR]. replace (_ + _) with 0 by lra. apply sqrt_0.
  - rewrite I2. cbn [INR]. replace (_ + _) with 1 by lra. apply sqrt_1.
Qed.

(** C3 amended: the field is symmetric about the line [x = width / 2] (the
    code's [center_x]): for a square area at beat progress 0, column [x] and
    column [width - x] carry the same intensity in every row. *)
Theorem radial_symmetric_about_center_x (n x y : nat) :
  (x <= n)%nat -> cell_intensity n n 0 x y = cell_intensity n n 0 (n - x) y.
Proof.
  intros Hx. unfold cell_intensity. cbv zeta.
  rewrite (minus_INR n x Hx).
  replace (INR n - INR x - INR n / 2) with (- (INR x - INR n / 2)) by lra.
  rewrite sqrt_square_sum_comm. reflexivity.
Qed.

Lemma radial_symmetric_about_center_x_witness :
  (1 <= 4)%nat /\ cell_intensity 4 4 0 1 2 = cell_intensity 4 4 0 3 2.
Proof.
  split; [lia|]. exact (radial_symmetric_about_center_x 4 1 2 ltac:(lia)).
Defined.

End RadialProofs.

(** ** The linear wave *)

Module LinearProofs.
Import Lra F64R RealFacts LinearWave.

(** The row chosen for a value in [[1, 4]] is in [[1, 4]]. *)
Lemma round_as_usize_range (v : R) : (1 <= v <= 4)%R -> (1 <= as_usize (round v) <= 4)%Z.
Proof.
  intros [H1 H4]. unfold round. destruct (Rle_dec 0 v) as [_|]; [|lra].
  destruct (base_Int_part (v + /2)) as [L U].
  set (k := Int_part (v + /2)) in *.
  assert (Hk5 : (k < 5)%Z) by (apply lt_IZR; lra).
  assert (Hk0 : (0 < k)%Z) by (apply lt_0_IZR; lra).
  unfold as_usize. rewrite trunc_nonneg by (apply IZR_le; lia).
  rewrite Int_part_IZR.
  change (2 ^ 64 - 1)%Z with 18446744073709551615%Z. lia.
Qed.

Lemma nth_map_seq {A : Type} (f : nat -> A) (w x : nat) (d : A) :
  (x < w)%nat -> nth x (map f (seq 0 w)) d = f x.
Proof.
  intros Hx. rewrite nth_indep with (d' := f 0%nat) by (rewrite length_map, length_seq; lia).
  rewrite map_nth, seq_nth by lia. reflexivity.
Qed.

Lemma length_filter_sum {A : Type} (f : A -> bool) (l : list A) :
  length (filter f l) = list_sum (map (fun a => if f a then 1 else 0)%nat l).
Proof. unfold list_sum. induction l as [|a l IH]; cbn; [reflexivity|]. destruct (f a); cbn; lia. Qed.

Lemma sum_map_plus {A : Type} (f g : A -> nat) (l : list A) :
  list_sum (map (fun a => f a + g a)%nat l) = (list_sum (map f l) + list_sum (map g l))%nat.
Proof. unfold list_sum. induction l as [|a l IH]; cbn; lia. Qed.

Lemma sum_map_zero {A : Type} (l : list A) : list_sum (map (fun _ => 0%nat) l) = 0%nat.
Proof. unfold list_sum. induction l as [|a l IH]; cbn; lia. Qed.

(** The rows [y] of [[s, s + len)] equal to [k]: one if [k] is among them. *)
Lemma indicator_seq (k : Z) (s len : nat) :
  list_sum (map (fun y => if Z.eqb (Z.of_nat y) k then 1 else 0)%nat (seq s len))
  = (if Z.leb (Z.of_nat s) k && Z.ltb k (Z.of_nat (s + len)) then 1 else 0)%nat.
Proof.
  unfold list_sum. revert s. induction len as [|len IH]; intros s; cbn [seq map fold_right].
  - destruct (Z.leb_spec (Z.of_nat s) k), (Z.ltb_spec k (Z.of_nat (s + 0))); cbn; lia.
  - rewrite IH.
    destruct (Z.eqb_spec (Z.of_nat s) k),
             (Z.leb_spec (Z.of_nat (S s)) k), (Z.ltb_spec k (Z.of_nat (S s + len))),
             (Z.leb_spec (Z.of_nat s) k), (Z.ltb_spec k (Z.of_nat (s + S len))); cbn; lia.
Qed.

(** Counting [(x, y)] pairs with [y = f x] row by row gives one per column
    when every [f x] is a row index. *)
Lemma double_count (f : nat -> Z) (xs : list nat) (h : nat) :
  (forall x, In x xs -> (0 <= f x < Z.of_nat h)%Z) ->
  list_sum (map (fun y => list_sum (map (fun x => if Z.eqb (Z.of_nat y) (f x) then 1 else 0)%nat xs))
                (seq 0 h)) = length xs.
Proof.
  induction xs as [|a xs IH]; intros Hf.
  - cbn [map list_sum fold_right]. apply sum_map_zero.
  - cbn [map list_sum fold_right length].
    change (fun y => (if Z.eqb (Z.of_nat y) (f a) then 1 else 0)
                   + fold_right Nat.add 0 (map (fun x => if Z.eqb (Z.of_nat y) (f x) then 1 else 0) xs))%nat
      with (fun y => (fun y => if Z.eqb (Z.of_nat y) (f a) then 1 else 0) y
                   + (fun y => list_sum (map (fun x => if Z.eqb (Z.of_nat y) (f x) then 1 else 0) xs)) y)%nat.
    rewrite sum_map_plus, IH by (intros x Hx; apply Hf; right; exact Hx).
    rewrite indicator_seq. destruct (Hf a (or_introl eq_refl)) as [H0 H1].
    destruct (Z.leb_spec (Z.of_nat 0) (f a)), (Z.ltb_spec (f a) (Z.of_nat (0 + h))); cbn; lia.
Qed.

Lemma is_lit_cell (b : bool) (c : Color) :
  is_lit (if b then (FullBlock, c) else (Blank, Black)) = b.
Proof. destruct b; reflexivity. Qed.

Lemma wave_positions_nth (bp : R) (x : nat) : (x < 10)%nat ->
  nth x (wave_positions 10 5 bp) 0%Z
  = as_usize (round (INR 5 / 2 + sin (INR x * (2 / 10) + bp * (5 / 100))
                                 * Rmax (INR 5 / 5) (15 / 10)))%R.
Proof. intros Hx. unfold wave_positions. rewrite nth_map_seq by exact Hx. reflexivity. Qed.

Lemma wave_row_range (bp : R) (x : nat) :
  (1 <= as_usize (round (INR 5 / 2 + sin (INR x * (2 / 10) + bp * (5 / 100))
                                     * Rmax (INR 5 / 5) (15 / 10))) <= 4)%Z.
Proof.
  apply round_as_usize_range.
  replace (INR 5) with 5%R by (rewrite INR_IZR_INZ; reflexivity).
  rewrite Rmax_right by lra.
  pose proof (SIN_bound (INR x * (2 / 10) + bp * (5 / 100))). lra.
Qed.

(** C7: on a 10 × 5 area, for every beat progress and album colour, the
    linear renderer builds 5 rows of 10 cells; column [x] is lit exactly at
    row [round(center_y + sin(x * 0.2 + beat_progress * 0.05) * amplitude)]
    with [center_y = 5 / 2] and [amplitude = max(5 / 5, 1.5)], a row in
    [[0, 4]] (indeed [[1, 4]]); every other cell is blank; so each column
    has one lit cell and the grid has 10. *)
Theorem linear_wave_one_cell_per_column (bp : R) (album_color : option rgb) :
  let g := render_concentric_waves 10 5 bp album_color in
  let row := fun x : nat =>
    as_usize (round (INR 5 / 2 + sin (INR x * (2 / 10) + bp * (5 / 100))
                                 * Rmax (INR 5 / 5) (15 / 10)))%R in
  length g = 5%nat
  /\ Forall (fun r => length r = 10%nat) g
  /\ (forall x, (x < 10)%nat -> (0 <= row x <= 4)%Z /\ column_lit_count g x = 1%nat)
  /\ (forall x y, (x < 10)%nat -> (y < 5)%nat ->
        cell_at (Blank, Black) g x y
        = if Z.eqb (Z.of_nat y) (row x) then (FullBlock, wave_color album_color)
          else (Blank, Black))
  /\ lit_cell_count g = 10%nat.
Proof.
  intros g row.
  assert (Hrow : forall x, (1 <= row x <= 4)%Z) by (intros x; apply wave_row_range).
  assert (Hpos : forall x, (x < 10)%nat -> nth x (wave_positions 10 5 bp) 0%Z = row x)
    by (intros x Hx; apply wave_positions_nth; exact Hx).
  split; [|split; [|split; [|split]]].
  - subst g. unfold render_concentric_waves. rewrite length_map, length_seq. reflexivity.
  - apply Forall_forall. intros r Hr. subst g. unfold render_concentric_waves in Hr.
    apply in_map_iff in Hr as [y [<- _]]. rewrite length_map, length_seq. reflexivity.
  - intros x Hx. split; [specialize (Hrow x); lia|].
    subst g. unfold column_lit_count, render_concentric_waves.
    rewrite length_filter_sum, map_map.
    rewrite (map_ext_in _ (fun y => if Z.eqb (Z.of_nat y) (row x) then 1 else 0)%nat).
    + rewrite indicator_seq. specialize (Hrow x).
      destruct (Z.leb_spec (Z.of_nat 0) (row x)), (Z.ltb_spec (row x) (Z.of_nat (0 + 5))); cbn; lia.
    + intros y _. rewrite nth_map_seq by exact Hx. rewrite is_lit_cell, (Hpos x Hx). reflexivity.
  - intros x y Hx Hy. subst g. unfold cell_at, render_concentric_waves.
    rewrite (nth_map_seq _ 5 y) by exact Hy. rewrite (nth_map_seq _ 10 x) by exact Hx.
    rewrite (Hpos x Hx). reflexivity.
  - subst g. unfold lit_cell_count, render_concentric_waves. rewrite map_map.
    rewrite (map_ext (fun y => length (filter is_lit (map _ (seq 0 10))))
               (fun y => list_sum (map (fun x => if Z.eqb (Z.of_nat y)
                           (nth x (wave_positions 10 5 bp) 0%Z) then 1 else 0)%nat (seq 0 10)))).
    + rewrite double_count; [apply length_seq|].
      intros x Hx. apply in_seq in Hx. rewrite (Hpos x ltac:(lia)). specialize (Hrow x). lia.
    + intros y. rewrite length_filter_sum, map_map.
      f_equal. apply map_ext. intros x. rewrite is_lit_cell. reflexivity.
Qed.

End LinearProofs.

(** ** Dominant-colour extraction *)

Module DominantProofs.
Import DominantColor.

Lemma step_kept (s : sums) (e : nat * nat * rgb) :
  step s e = if kept e
             then {| r_sum := r_sum s + red (snd e); g_sum := g_sum s + green (snd e);
                     b_sum := b_sum s + blue (snd e); count := count s + 1 |}%Z
             else s.
Proof.
  destruct e as [[x y] [[r g] b]]. unfold step, kept.
  destruct (Nat.eqb (x mod 4) 0), (Nat.eqb (y mod 4) 0),
           (Z.ltb 20 ((r + g + b) / 3)), (Z.ltb ((r + g + b) / 3) 235); reflexivity.
Qed.

Lemma sum_channel_cons (f : rgb -> Z) (e : nat * nat * rgb) (l : list (nat * nat * rgb)) :
  sum_channel f (e :: l) = (f (snd e) + sum_channel f l)%Z.
Proof. reflexivity. Qed.

(** The loop adds up exactly the kept samples. *)
Lemma fold_step (l : list (nat * nat * rgb)) (s : sums) :
  fold_left step l s
  = {| r_sum := r_sum s + sum_channel red (filter kept l);
       g_sum := g_sum s + sum_channel green (filter kept l);
       b_sum := b_sum s + sum_channel blue (filter kept l);
       count := count s + Z.of_nat (length (filter kept l)) |}%Z.
Proof.
  revert s. induction l as [|e l IH]; intros s.
  - destruct s. cbn. f_equal; lia.
  - cbn [fold_left filter]. rewrite step_kept. destruct (kept e); rewrite IH.
    + cbn [filter r_sum g_sum b_sum count length].
      rewrite !sum_channel_cons. f_equal; lia.
    + reflexivity.
Qed.

Lemma enumerate_row_in (x y : nat) (row : list rgb) (e : nat * nat * rgb) :
  In e (enumerate_row x y row) -> In (snd e) row.
Proof.
  revert x. induction row as [|p row IH]; intros x H; cbn in H; [contradiction|].
  destruct H as [<- | H]; [left; reflexivity | right; exact (IH _ H)].
Qed.

Lemma enumerate_pixels_in (img : image) (e : nat * nat * rgb) :
  In e (enumerate_pixels img) -> In (snd e) (concat img).
Proof.
  unfold enumerate_pixels. generalize 0%nat as y.
  induction img as [|row img IH]; intros y H; cbn in H; [contradiction|].
  cbn [concat]. apply in_app_or in H as [H | H]; apply in_or_app.
  - left. exact (enumerate_row_in _ _ _ _ H).
  - right. exact (IH _ H).
Qed.

Lemma uniform_in (c : rgb) (w h : nat) (p : rgb) :
  In p (concat (repeat (repeat c w) h)) -> p = c.
Proof.
  induction h as [|h IH]; cbn; [contradiction|].
  intros H. apply in_app_or in H as [H | H]; [exact (repeat_spec _ _ _ H) | exact (IH H)].
Qed.

Lemma sum_channel_const (f : rgb -> Z) (v : Z) (l : list (nat * nat * rgb)) :
  (forall e, In e l -> f (snd e) = v) -> sum_channel f l = (v * Z.of_nat (length l))%Z.
Proof.
  induction l as [|e l IH]; intros H; cbn [sum_channel fold_right length]; [lia|].
  fold (sum_channel f l). rewrite (H e (or_introl eq_refl)), IH by (intros; apply H; right; assumption).
  lia.
Qed.

Lemma u64_as_u8_small (v : Z) : (0 <= v < 256)%Z -> u64_as_u8 v = v.
Proof.
  intros H. unfold u64_as_u8. change 255%Z with (Z.ones 8).
  rewrite Z.land_ones by lia. apply Z.mod_small. exact H.
Qed.

Lemma black_not_kept (e : nat * nat * rgb) : snd e = (0, 0, 0)%Z -> kept e = false.
Proof.
  destruct e as [[x y] p]. cbn [snd]. intros ->. unfold kept.
  change ((0 + 0 + 0) / 3)%Z with 0%Z.
  rewrite Bool.andb_true_r, Bool.andb_false_r. reflexivity.
Qed.

Lemma filter_none {A : Type} (f : A -> bool) (l : list A) :
  (forall a, In a l -> f a = false) -> filter f l = [].
Proof.
  induction l as [|a l IH]; intros H; cbn; [reflexivity|].
  rewrite (H a (or_introl eq_refl)). apply IH. intros; apply H; right; assumption.
Qed.

(** C8: extraction averages, channel by channel, the samples taken every
    4th pixel in both axes whose brightness [(r + g + b) / 3] is strictly
    between 20 and 235, after the nearest-neighbour resize (which only
    picks pixels of the input, and keeps a non-empty image non-empty).  An
    all-grey image of any such brightness (127 say) gives back that grey;
    an all-black image gives the fallback cyan [(0, 200, 255)]. *)
Theorem extract_dominant_color_spec (resize : image -> image) :
  (forall img p, In p (concat (resize img)) -> In p (concat img)) ->
  (forall img, nonempty img = true -> nonempty (resize img) = true) ->
  (forall img,
      extract_dominant_color resize img
      = let k := filter kept (enumerate_pixels (resize img)) in
        if Nat.eqb (length k) 0 then (0, 200, 255)%Z
        else (u64_as_u8 (sum_channel red k / Z.of_nat (length k)),
              u64_as_u8 (sum_channel green k / Z.of_nat (length k)),
              u64_as_u8 (sum_channel blue k / Z.of_nat (length k)))%Z)
  /\ (forall (v : Z) (w h : nat), (20 < v < 235)%Z ->
        extract_dominant_color resize (repeat (repeat (v, v, v) (S w)) (S h)) = (v, v, v))
  /\ (forall img, (forall p, In p (concat img) -> p = (0, 0, 0)%Z) ->
        extract_dominant_color resize img = (0, 200, 255)%Z).
Proof.
  intros Hsub Hne.
  assert (Char : forall img,
      extract_dominant_color resize img
      = let k := filter kept (enumerate_pixels (resize img)) in
        if Nat.eqb (length k) 0 then (0, 200, 255)%Z
        else (u64_as_u8 (sum_channel red k / Z.of_nat (length k)),
              u64_as_u8 (sum_channel green k / Z.of_nat (length k)),
              u64_as_u8 (sum_channel blue k / Z.of_nat (length k)))%Z).
  { intros img. unfold extract_dominant_color, extract_from_rgb.
    rewrite fold_step. cbn [sums0 r_sum g_sum b_sum count].
    destruct (length (filter kept (enumerate_pixels (resize img)))) as [|n]; reflexivity. }
  split; [exact Char|]. split.
  - intros v w h Hv. rewrite Char. cbv zeta.
    set (img := repeat (repeat (v, v, v) (S w)) (S h)).
    assert (Hgray : forall e, In e (enumerate_pixels (resize img)) -> snd e = (v, v, v)).
    { intros e He. apply enumerate_pixels_in, Hsub, uniform_in in He. exact He. }
    assert (Hk : forall e, In e (filter kept (enumerate_pixels (resize img))) -> snd e = (v, v, v)).
    { intros e He. apply filter_In in He as [He _]. exact (Hgray e He). }
    assert (Hlen : (0 < length (filter kept (enumerate_pixels (resize img))))%nat).
    { pose proof (Hne img eq_refl) as Hn.
      destruct (resize img) as [|[|p0 row] rest] eqn:E; try discriminate Hn.
      assert (Hp0 : p0 = (v, v, v)).
      { apply (Hgray (0%nat, 0%nat, p0)). try rewrite E. cbn. left. reflexivity. }
      subst p0. unfold enumerate_pixels. cbn [enumerate_rows enumerate_row app filter].
      match goal with |- context [kept ?e0] => assert (Hb : kept e0 = true) end.
      { unfold kept. replace (v + v + v)%Z with (v * 3)%Z by ring. rewrite Z.div_mul by lia.
        destruct (Z.ltb_spec 20 v), (Z.ltb_spec v 235); cbn; lia. }
      rewrite Hb. cbn [length]. lia. }
    destruct (length (filter kept (enumerate_pixels (resize img)))) as [|n] eqn:En; [lia|].
    rewrite !(sum_channel_const _ v (filter kept (enumerate_pixels (resize img))))
      by (intros e He; rewrite (Hk e He); reflexivity).
    rewrite En. cbn [Nat.eqb].
    rewrite Z.div_mul by lia. rewrite u64_as_u8_small by lia. reflexivity.
  - intros img Hblack. rewrite Char. cbv zeta.
    rewrite filter_none; [reflexivity|].
    intros e He. apply black_not_kept.
    apply Hblack, Hsub, enumerate_pixels_in. exact He.
Qed.

(** The identity resize (an image already 64 × 64) satisfies the
    hypotheses: a 64 × 64 grey 127 image, and a black one. *)
Lemma extract_dominant_color_spec_witness :
  (forall (img : image) p, In p (concat img) -> In p (concat img))
  /\ (forall img : image, nonempty img = true -> nonempty img = true)
  /\ extract_dominant_color (fun img => img) (repeat (repeat (127, 127, 127)%Z 64) 64)
     = (127, 127, 127)%Z
  /\ extract_dominant_color (fun img => img) (repeat (repeat (0, 0, 0)%Z 64) 64)
     = (0, 200, 255)%Z.
Proof.
  assert (H1 : forall (img : image) p, In p (concat img) -> In p (concat img)) by auto.
  assert (H2 : forall img : image, nonempty img = true -> nonempty img = true) by auto.
  split; [exact H1|]. split; [exact H2|].
  destruct (extract_dominant_color_spec (fun img => img) H1 H2) as (_ & Hgray & Hblack).
  split.
  - apply (Hgray 127%Z 63%nat 63%nat). lia.
  - apply Hblack. intros p Hp. exact (uniform_in _ _ _ _ Hp).
Defined.

End DominantProofs.

Module UtilsProofs.
Import String Ascii Utils.
Local Open Scope nat_scope.

Lemma append_assoc (a b c : string) : append (append a b) c = append a (append b c).
Proof. induction a as [|x a IH]; cbn; [reflexivity | rewrite IH; reflexivity]. Qed.

Lemma append_empty_r (a : string) : append a EmptyString = a.
Proof. induction a as [|x a IH]; cbn; [reflexivity | rewrite IH; reflexivity]. Qed.

Lemma length_append (a b : string) : String.length (append a b) = String.length a + String.length b.
Proof. induction a as [|x a IH]; cbn; [reflexivity | rewrite IH; reflexivity]. Qed.

Lemma has_char_append (c : ascii) (a b : string) :
  has_char c (append a b) = has_char c a || has_char c b.
Proof. induction a as [|x a IH]; cbn; [reflexivity | rewrite IH, Bool.orb_assoc; reflexivity]. Qed.

(** [String.concat sep (a :: l)] peels off its head. *)
Lemma concat_cons_app (sep a b : string) (l : list string) :
  String.concat sep (append a b :: l) = append a (String.concat sep (b :: l)).
Proof. destruct l as [|z l]; cbn; [reflexivity | apply append_assoc]. Qed.

(** Folding from a non-empty accumulator joins with [sep] everywhere. *)
Lemma map_join_fold (sep acc : string) (l : list string) :
  acc <> EmptyString ->
  fold_left (fun x y => if String.eqb x EmptyString then append x y
                        else append (append x sep) y) l acc
  = String.concat sep (acc :: l).
Proof.
  revert acc. induction l as [|y l IH]; intros acc Hacc; [reflexivity|].
  cbn [fold_left]. destruct (String.eqb_spec acc EmptyString) as [E|_]; [contradiction|].
  rewrite IH.
  - rewrite append_assoc, !concat_cons_app. reflexivity.
  - destruct acc; [contradiction | discriminate].
Qed.

(** X1: [map_join] joins the mapped strings with [sep], except that the
    leading empty strings are dropped without a separator. *)
Theorem map_join_concat {T : Type} (v : list T) (f : T -> string) (sep : string) :
  map_join v f sep = String.concat sep (drop_leading_empty (map f v)).
Proof.
  unfold map_join. induction (map f v) as [|y l IH]; [reflexivity|].
  cbn [fold_left drop_leading_empty].
  destruct (String.eqb_spec EmptyString EmptyString) as [_|]; [|contradiction].
  cbn [append]. destruct (String.eqb_spec y EmptyString) as [->|Hy].
  - exact IH.
  - apply map_join_fold. exact Hy.
Qed.

Lemma split_on_nosep (c : ascii) (s : string) : has_char c s = false -> split_on c s = [s].
Proof.
  induction s as [|a s IH]; intros H; [reflexivity|]. cbn in H |- *.
  apply Bool.orb_false_iff in H as [Ha Hs]. rewrite Ha, (IH Hs). reflexivity.
Qed.

Lemma split_on_append (c : ascii) (s t : string) :
  has_char c s = false -> split_on c (append s (String c t)) = s :: split_on c t.
Proof.
  induction s as [|a s IH]; intros H.
  - cbn. rewrite Ascii.eqb_refl. reflexivity.
  - cbn in H |- *. apply Bool.orb_false_iff in H as [Ha Hs]. rewrite Ha, (IH Hs). reflexivity.
Qed.

(** Joining separator-free pieces with the separator and splitting again
    gives the pieces back. *)
Lemma split_on_concat (c : ascii) (parts : list string) :
  parts <> [] -> Forall (fun p => has_char c p = false) parts ->
  split_on c (String.concat (String c EmptyString) parts) = parts.
Proof.
  induction parts as [|p parts IH]; intros Hne Hall; [contradiction|].
  inversion Hall as [|? ? Hp Hrest]; subst.
  destruct parts as [|q parts].
  - cbn. apply split_on_nosep. exact Hp.
  - change (String.concat (String c EmptyString) (p :: q :: parts))
      with (append p (String c (String.concat (String c EmptyString) (q :: parts)))).
    rewrite split_on_append by exact Hp. rewrite IH by (discriminate || exact Hrest).
    reflexivity.
Qed.

Lemma split_on_pieces (c : ascii) (s p : string) : In p (split_on c s) -> has_char c p = false.
Proof.
  revert p. induction s as [|a s IH]; intros p Hp; cbn in Hp.
  - destruct Hp as [<-|[]]. reflexivity.
  - destruct (Ascii.eqb a c) eqn:Ea.
    + destruct Hp as [<-|Hp]; [reflexivity | exact (IH p Hp)].
    + destruct (split_on c s) as [|q qs] eqn:Es.
      * destruct Hp as [<-|[]]. cbn. rewrite Ea. reflexivity.
      * destruct Hp as [<-|Hp].
        -- cbn. rewrite Ea. apply IH. left. reflexivity.
        -- apply IH. right. exact Hp.
Qed.

Lemma split_on_length (c : ascii) (s : string) :
  List.length (split_on c s) = S (count_char c s).
Proof.
  induction s as [|a s IH]; [reflexivity|]. cbn.
  destruct (Ascii.eqb a c); cbn.
  - rewrite IH. reflexivity.
  - destruct (split_on c s); cbn in IH |- *; [discriminate | exact IH].
Qed.

Lemma no_colon_nth (l : list string) (n : nat) :
  (forall p, In p l -> has_char ":"%char p = false) -> has_char ":"%char (nth n l EmptyString) = false.
Proof.
  intros H. destruct (Nat.lt_ge_cases n (List.length l)) as [Hn|Hn].
  - apply H. apply nth_In. exact Hn.
  - rewrite nth_overflow by exact Hn. reflexivity.
Qed.

(** X2: a five-part URI [a:b:u:t:i] (no [':'] inside the parts), such as
    [spotify:user:{user_id}:{type}:{id}], is rewritten to [a:t:i]. *)
Theorem parse_uri_five_parts (a b u t i : string) :
  Forall (fun p => has_char ":"%char p = false) [a; b; u; t; i] ->
  parse_uri (String.concat ":" [a; b; u; t; i]) = String.concat ":" [a; t; i].
Proof.
  intros H. unfold parse_uri.
  rewrite (split_on_concat ":"%char [a; b; u; t; i]) by (discriminate || exact H).
  reflexivity.
Qed.

Lemma parse_uri_five_parts_witness :
  Forall (fun p => has_char ":"%char p = false)
         ["spotify"; "user"; "alice"; "playlist"; "37i9dQ"]%string
  /\ parse_uri "spotify:user:alice:playlist:37i9dQ"%string = "spotify:playlist:37i9dQ"%string.
Proof.
  assert (H : Forall (fun p => has_char ":"%char p = false)
                     ["spotify"; "user"; "alice"; "playlist"; "37i9dQ"]%string)
    by (repeat constructor).
  split; [exact H|]. exact (parse_uri_five_parts _ _ _ _ _ H).
Defined.

(** X3: a URI that does not have exactly four [':'] is returned unchanged. *)
Theorem parse_uri_other_unchanged (uri : string) :
  count_char ":"%char uri <> 4 -> parse_uri uri = uri.
Proof.
  intros H. unfold parse_uri. rewrite split_on_length.
  destruct (Nat.eqb_spec (S (count_char ":"%char uri)) 5); [lia | reflexivity].
Qed.

Lemma parse_uri_other_unchanged_witness :
  count_char ":"%char "spotify:track:4uLU6hMC"%string <> 4
  /\ parse_uri "spotify:track:4uLU6hMC"%string = "spotify:track:4uLU6hMC"%string.
Proof.
  assert (H : count_char ":"%char "spotify:track:4uLU6hMC"%string <> 4) by (cbv; discriminate).
  split; [exact H|]. exact (parse_uri_other_unchanged _ H).
Defined.

(** X4: [parse_uri] is idempotent: a rewritten URI has three parts and is
    left alone by a second call. *)
Theorem parse_uri_idempotent (uri : string) : parse_uri (parse_uri uri) = parse_uri uri.
Proof.
  destruct (Nat.eqb_spec (List.length (split_on ":"%char uri)) 5) as [E|E].
  - set (parts := split_on ":"%char uri) in E.
    assert (R : parse_uri uri = String.concat ":" [nth 0 parts EmptyString;
                  nth 3 parts EmptyString; nth 4 parts EmptyString])
      by (unfold parse_uri; fold parts; rewrite E; reflexivity).
    assert (Hp : forall p, In p parts -> has_char ":"%char p = false)
      by (intros p; apply split_on_pieces).
    rewrite R. unfold parse_uri.
    rewrite split_on_concat.
    + reflexivity.
    + discriminate.
    + repeat constructor; apply no_colon_nth; exact Hp.
  - assert (R : parse_uri uri = uri).
    { unfold parse_uri. destruct (Nat.eqb_spec (List.length (split_on ":"%char uri)) 5);
        [contradiction | reflexivity]. }
    rewrite !R. reflexivity.
Qed.

Lemma digit_value_char (d : nat) : d < 10 -> digit_value (digit_char d) = Some d.
Proof.
  intros Hd. unfold digit_value, digit_char. rewrite Ascii.nat_ascii_embedding by lia.
  replace (Nat.leb 48 (48 + d)) with true by (symmetry; apply Nat.leb_le; lia).
  replace (Nat.leb (48 + d) 57) with true by (symmetry; apply Nat.leb_le; lia).
  cbn [andb]. f_equal. lia.
Qed.

Lemma digit_not_colon (d : nat) : d < 10 -> Ascii.eqb (digit_char d) ":"%char = false.
Proof.
  intros Hd. destruct (Ascii.eqb_spec (digit_char d) ":"%char) as [E|]; [|reflexivity].
  apply (f_equal nat_of_ascii) in E. unfold digit_char in E.
  rewrite Ascii.nat_ascii_embedding in E by lia.
  change (nat_of_ascii ":"%char) with 58 in E. lia.
Qed.

Lemma read_digits_append (acc : nat) (s t : string) :
  read_digits_from acc (append s t)
  = match read_digits_from acc s with Some v => read_digits_from v t | None => None end.
Proof.
  revert acc. induction s as [|c s IH]; intros acc; [reflexivity|].
  cbn. destruct (digit_value c); [apply IH | reflexivity].
Qed.

(** What [show_nat_fuel] prints when the fuel exceeds the number: decimal
    digits that read back to the number, no [':'], one digit below 10 and
    two below 100. *)
Lemma show_nat_fuel_spec (f n : nat) : n < f ->
  let s := show_nat_fuel f n in
  (forall acc, read_digits_from acc s = Some (acc * 10 ^ String.length s + n))
  /\ has_char ":"%char s = false
  /\ 1 <= String.length s
  /\ (n < 10 -> String.length s = 1)
  /\ (10 <= n < 100 -> String.length s = 2).
Proof.
  revert n. induction f as [|f IH]; intros n Hn; [lia|]. cbn [show_nat_fuel].
  destruct (Nat.ltb_spec n 10) as [Hlt|Hge].
  - cbn zeta. cbn [String.length]. repeat split; try lia.
    + intros acc. cbn [read_digits_from]. rewrite digit_value_char by exact Hlt.
      cbn. f_equal; lia.
    + cbn [has_char]. rewrite digit_not_colon by exact Hlt. reflexivity.
  - assert (Hq : n / 10 < f).
    { assert (n / 10 < n) by (apply Nat.div_lt; lia). lia. }
    destruct (IH (n / 10) Hq) as (Hr & Hc & Hl & Hl1 & _).
    assert (Hm : n mod 10 < 10) by (apply Nat.mod_upper_bound; lia).
    cbn zeta. rewrite length_append. cbn [String.length]. repeat split.
    + intros acc. rewrite read_digits_append, Hr. cbn [read_digits_from].
      rewrite digit_value_char by exact Hm. f_equal.
      rewrite Nat.add_1_r, Nat.pow_succ_r'.
      pose proof (Nat.div_mod_eq n 10). nia.
    + rewrite has_char_append, Hc. cbn [has_char orb]. rewrite digit_not_colon by exact Hm. reflexivity.
    + lia.
    + lia.
    + intros [_ H100]. rewrite Hl1; [reflexivity|].
      apply Nat.Div0.div_lt_upper_bound. lia.
Qed.

Lemma read_nat_nonempty (s : string) : s <> EmptyString -> read_nat s = read_digits_from 0 s.
Proof. destruct s; [contradiction | reflexivity]. Qed.

Lemma show_nat_spec (n : nat) :
  read_nat (show_nat n) = Some n
  /\ has_char ":"%char (show_nat n) = false
  /\ 1 <= String.length (show_nat n)
  /\ (n < 10 -> String.length (show_nat n) = 1)
  /\ (10 <= n < 100 -> String.length (show_nat n) = 2).
Proof.
  destruct (show_nat_fuel_spec (S n) n ltac:(lia)) as (Hr & Hc & Hl & Hl1 & Hl2).
  unfold show_nat. repeat split; try assumption.
  rewrite read_nat_nonempty, Hr; [f_equal; lia|].
  intros E. rewrite E in Hl. cbn in Hl. lia.
Qed.

Lemma zeros_read (k : nat) (s : string) :
  read_digits_from 0 (append (zeros k) s) = read_digits_from 0 s.
Proof. induction k as [|k IH]; [reflexivity | exact IH]. Qed.

Lemma zeros_no_colon (k : nat) : has_char ":"%char (zeros k) = false.
Proof. induction k as [|k IH]; [reflexivity | exact IH]. Qed.

Lemma zeros_length (k : nat) : String.length (zeros k) = k.
Proof. induction k as [|k IH]; cbn; lia. Qed.

(** For [secs >= 0]: the minutes and the two-character seconds field. *)
Lemma format_duration_nonneg (secs : Z) : (0 <= secs)%Z ->
  let digits := show_nat (Z.to_nat (Z.rem secs 60)) in
  format_duration secs
  = append (show_nat (Z.to_nat (Z.quot secs 60)))
           (String ":"%char (append (zeros (2 - String.length digits)) digits))
  /\ (0 <= Z.quot secs 60)%Z /\ (0 <= Z.rem secs 60 < 60)%Z
  /\ secs = (60 * Z.quot secs 60 + Z.rem secs 60)%Z.
Proof.
  intros H digits.
  pose proof (Z.quot_pos secs 60 H ltac:(lia)) as Hq.
  pose proof (Z.rem_bound_pos secs 60 H ltac:(lia)) as Hr.
  pose proof (Z.quot_rem secs 60 ltac:(lia)) as Hd.
  repeat split; try lia.
  unfold format_duration, show_int, show_int_02.
  destruct (Z.ltb_spec (Z.quot secs 60) 0); [lia|].
  destruct (Z.ltb_spec (Z.rem secs 60) 0); [lia|].
  rewrite Z.abs_eq by lia. reflexivity.
Qed.

(** X5: for a non-negative duration, reading "{minutes}:{seconds}" back
    gives the number of seconds. *)
Theorem format_duration_round_trip (secs : Z) :
  (0 <= secs)%Z -> read_duration (format_duration secs) = Some secs.
Proof.
  intros H. destruct (format_duration_nonneg secs H) as (E & Hq & Hr & Hd). rewrite E.
  set (m := Z.to_nat (Z.quot secs 60)). set (r := Z.to_nat (Z.rem secs 60)).
  destruct (show_nat_spec m) as (Rm & Cm & _). destruct (show_nat_spec r) as (Rr & Cr & Lr & _).
  unfold read_duration. rewrite split_on_append by exact Cm.
  rewrite split_on_nosep by (rewrite has_char_append, zeros_no_colon, Cr; reflexivity).
  rewrite Rm.
  assert (Ne : append (zeros (2 - String.length (show_nat r))) (show_nat r) <> EmptyString).
  { intros E0. apply (f_equal String.length) in E0. rewrite length_append in E0. cbn [String.length] in E0. lia. }
  rewrite (read_nat_nonempty _ Ne), zeros_read.
  rewrite read_nat_nonempty in Rr by (intros E0; rewrite E0 in Lr; cbn in Lr; lia).
  rewrite Rr. f_equal. subst m r. lia.
Qed.

Lemma format_duration_round_trip_witness :
  (0 <= 3725)%Z /\ read_duration (format_duration 3725) = Some 3725%Z.
Proof.
  split; [lia|]. apply format_duration_round_trip. lia.
Defined.

(** X6: for a non-negative duration the seconds field after the [':'] is
    always two characters (zero-padded) and reads as [secs % 60]. *)
Theorem format_duration_two_digit_seconds (secs : Z) : (0 <= secs)%Z ->
  exists s, format_duration secs = append (show_nat (Z.to_nat (Z.quot secs 60))) (String ":"%char s)
       /\ String.length s = 2 /\ read_nat s = Some (Z.to_nat (Z.rem secs 60)).
Proof.
  intros H. destruct (format_duration_nonneg secs H) as (E & Hq & Hr & Hd).
  set (r := Z.to_nat (Z.rem secs 60)) in *.
  destruct (show_nat_spec r) as (Rr & Cr & Lr & L1 & L2).
  eexists. split; [exact E|]. split.
  - rewrite length_append, zeros_length.
    destruct (Nat.ltb_spec r 10); [rewrite L1 by lia | rewrite L2 by lia]; reflexivity.
  - rewrite read_nat_nonempty, zeros_read.
    + rewrite read_nat_nonempty in Rr by (intros E0; rewrite E0 in Lr; cbn in Lr; lia).
      exact Rr.
    + intros E0. apply (f_equal String.length) in E0. rewrite length_append in E0. cbn [String.length] in E0. lia.
Qed.

Lemma format_duration_two_digit_seconds_witness :
  (0 <= 65)%Z /\
  exists s, format_duration 65 = append (show_nat (Z.to_nat (Z.quot 65 60))) (String ":"%char s)
       /\ String.length s = 2 /\ read_nat s = Some (Z.to_nat (Z.rem 65 60)).
Proof. split; [lia|]. apply format_duration_two_digit_seconds. lia. Defined.

(** X7: a negative duration of less than a minute prints with minutes
    "0" and a negative seconds field: [-5 s] is "0:-5" (both [/] and [%]
    truncate toward zero). *)
Theorem format_duration_negative_seconds (secs : Z) : (-60 < secs < 0)%Z ->
  format_duration secs = append "0:-" (show_nat (Z.to_nat (- secs))).
Proof.
  intros H.
  assert (Hq : Z.quot secs 60 = 0%Z).
  { replace secs with (- (- secs))%Z by lia. rewrite Z.quot_opp_l by lia.
    rewrite Z.quot_small by lia. reflexivity. }
  assert (Hr : Z.rem secs 60 = secs).
  { replace secs with (- (- secs))%Z at 1 by lia. rewrite Z.rem_opp_l by lia.
    rewrite Z.rem_small by lia. lia. }
  unfold format_duration. rewrite Hq, Hr. unfold show_int_02.
  destruct (Z.ltb_spec secs 0) as [_|]; [|lia].
  rewrite Z.abs_neq by lia.
  destruct (show_nat_spec (Z.to_nat (- secs))) as (_ & _ & L & _).
  replace (2 - (String.length "-" + String.length (show_nat (Z.to_nat (- secs))))) with 0
    by (cbn [String.length]; lia).
  reflexivity.
Qed.

Lemma format_duration_negative_seconds_witness :
  (-60 < -5 < 0)%Z /\ format_duration (-5) = "0:-5"%string.
Proof.
  assert (H : (-60 < -5 < 0)%Z) by lia. split; [exact H|].
  rewrite (format_duration_negative_seconds (-5) H). reflexivity.
Defined.

Lemma prefix_iff (q t : string) : String.prefix q t = true <-> exists b, t = append q b.
Proof.
  revert t. induction q as [|a q IH]; intros t.
  - split; [intros _; exists t; reflexivity | intros _; destruct t; reflexivity].
  - destruct t as [|b t]; cbn.
    + split; [discriminate | intros [r E]; discriminate E].
    + destruct (ascii_dec a b) as [<-|Hab].
      * rewrite IH. split; intros [r E]; exists r; [rewrite E | injection E]; auto.
      * split; [discriminate | intros [r E]; injection E as E _; congruence].
Qed.

Lemma contains_iff (t q : string) :
  contains t q = true <-> exists a b, t = append a (append q b).
Proof.
  induction t as [|c t IH]; cbn [contains]; rewrite Bool.orb_true_iff, prefix_iff.
  - split.
    + intros [[b E] | F]; [exists EmptyString, b; exact E | discriminate F].
    + intros [a [b E]]. left. destruct a; [exists b; exact E | discriminate E].
  - rewrite IH. split.
    + intros [[b E] | [a [b E]]].
      * exists EmptyString, b. exact E.
      * exists (String c a), b. rewrite E. reflexivity.
    + intros [a [b E]]. destruct a as [|c' a].
      * left. exists b. exact E.
      * right. injection E as _ E. exists a, b. exact E.
Qed.

Lemma concat_split_on (c : ascii) (s : string) :
  String.concat (String c EmptyString) (split_on c s) = s.
Proof.
  induction s as [|a s IH]; [reflexivity|]. cbn [split_on].
  pose proof (split_on_length c s) as L.
  destruct (Ascii.eqb_spec a c) as [->|_].
  - destruct (split_on c s) as [|p ps]; [discriminate L|].
    change (String.concat (String c EmptyString) (EmptyString :: p :: ps))
      with (String c (String.concat (String c EmptyString) (p :: ps))).
    rewrite IH. reflexivity.
  - destruct (split_on c s) as [|p ps]; [discriminate L|].
    change (String a p) with (append (String a EmptyString) p).
    rewrite concat_cons_app, IH. reflexivity.
Qed.

Lemma in_concat_sub (sep p : string) (l : list string) :
  In p l -> exists a b, String.concat sep l = append a (append p b).
Proof.
  induction l as [|x l IH]; intros H; [destruct H|].
  destruct H as [<- | H].
  - destruct l as [|y l].
    + exists EmptyString, EmptyString. cbn. rewrite append_empty_r. reflexivity.
    + exists EmptyString, (append sep (String.concat sep (y :: l))). reflexivity.
  - destruct (IH H) as [a [b E]]. destruct l as [|y l]; [destruct H|].
    exists (append x (append sep a)), b.
    change (String.concat sep (x :: y :: l)) with (append x (append sep (String.concat sep (y :: l)))).
    rewrite E, !append_assoc. reflexivity.
Qed.

Lemma contains_trans (t q p : string) :
  contains t q = true -> contains q p = true -> contains t p = true.
Proof.
  rewrite !contains_iff. intros [a [b E]] [a' [b' E']]. subst.
  exists (append a a'), (append b' b). rewrite !append_assoc. reflexivity.
Qed.

Lemma contains_piece (c : ascii) (s p : string) : In p (split_on c s) -> contains s p = true.
Proof.
  intros H. apply contains_iff.
  destruct (in_concat_sub (String c EmptyString) p _ H) as [a [b E]].
  rewrite concat_split_on in E. exists a, b. exact E.
Qed.

Lemma filter_true_all {A : Type} (f : A -> bool) (l : list A) :
  (forall a, f a = true) -> filter f l = l.
Proof. intros H. induction l as [|a l IH]; cbn; [reflexivity | rewrite H, IH; reflexivity]. Qed.

(** X8: a query that lowercases to the empty string or to spaces only keeps
    every item, in order. *)
Theorem filtered_items_blank_query {T : Type} (to_lowercase : string -> string)
    (show : T -> string) (query : string) (items : list T) :
  (forall w, In w (split_on " "%char (to_lowercase query)) -> w = EmptyString) ->
  filtered_items_from_query to_lowercase show query items = items.
Proof.
  intros H. unfold filtered_items_from_query. apply filter_true_all. intros t.
  destruct (String.eqb (to_lowercase query) EmptyString); [reflexivity|].
  rewrite DominantProofs.filter_none; [reflexivity|].
  intros w Hw. rewrite (H w Hw). reflexivity.
Qed.

Lemma filtered_items_blank_query_witness :
  (forall w, In w (split_on " "%char ("   "%string)) -> w = EmptyString)
  /\ filtered_items_from_query (fun s => s) (fun s => s) "   "%string ["Song A"; "Song B"]%string
     = ["Song A"; "Song B"]%string.
Proof.
  assert (H : forall w, In w (split_on " "%char ("   "%string)) -> w = EmptyString).
  { intros w Hw. cbn in Hw. intuition congruence. }
  split; [exact H|]. exact (filtered_items_blank_query (fun s => s) (fun s => s) _ _ H).
Defined.

(** X9: an item whose lowercased text contains the whole lowercased query
    is always kept, e.g. "daft punk" keeps "Daft Punk - One More Time". *)
Theorem filtered_items_keeps_full_match {T : Type} (to_lowercase : string -> string)
    (show : T -> string) (query : string) (items : list T) (t : T) :
  In t items -> contains (to_lowercase (show t)) (to_lowercase query) = true ->
  In t (filtered_items_from_query to_lowercase show query items).
Proof.
  intros Hin Hc. unfold filtered_items_from_query. apply filter_In. split; [exact Hin|].
  destruct (String.eqb (to_lowercase query) EmptyString); [reflexivity|].
  apply forallb_forall. intros w Hw. apply filter_In in Hw as [Hw _].
  exact (contains_trans _ _ _ Hc (contains_piece _ _ _ Hw)).
Qed.

Lemma filtered_items_keeps_full_match_witness :
  In "daft punk - one more time"%string ["intro"; "daft punk - one more time"]%string
  /\ contains "daft punk - one more time"%string "daft punk"%string = true
  /\ In "daft punk - one more time"%string
        (filtered_items_from_query (fun s => s) (fun s => s) "daft punk"%string
                                   ["intro"; "daft punk - one more time"]%string).
Proof.
  assert (H1 : In "daft punk - one more time"%string ["intro"; "daft punk - one more time"]%string)
    by (right; left; reflexivity).
  assert (H2 : contains "daft punk - one more time"%string "daft punk"%string = true)
    by reflexivity.
  split; [exact H1|]. split; [exact H2|].
  exact (filtered_items_keeps_full_match (fun s => s) (fun s => s) _ _ _ H1 H2).
Defined.

End UtilsProofs.

Module DemoAppProofs.
Import Ascii DemoApp.

Lemma f64_min_int (b : Q) (z c : Z) :
  b == inject_Z z -> f64_min b (inject_Z c) == inject_Z (Z.min z c).
Proof.
  intros Hb. unfold f64_min. destruct (Qle_bool b (inject_Z c)) eqn:E.
  - apply Qle_bool_iff in E. rewrite Hb, <- Zle_Qle in E. rewrite Z.min_l by exact E. exact Hb.
  - assert (N : ~ (z <= c)%Z).
    { intros L. rewrite Zle_Qle, <- Hb in L. apply Qle_bool_iff in L. congruence. }
    rewrite Z.min_r by lia. reflexivity.
Qed.

Lemma f64_max_int (b : Q) (z c : Z) :
  b == inject_Z z -> f64_max b (inject_Z c) == inject_Z (Z.max z c).
Proof.
  intros Hb. unfold f64_max. destruct (Qle_bool (inject_Z c) b) eqn:E.
  - apply Qle_bool_iff in E. rewrite Hb, <- Zle_Qle in E. rewrite Z.max_l by exact E. exact Hb.
  - assert (N : ~ (c <= z)%Z).
    { intros L. rewrite Zle_Qle, <- Hb in L. apply Qle_bool_iff in L. congruence. }
    rewrite Z.max_r by lia. reflexivity.
Qed.

Lemma increase_bpm_int (a : App) (z : Z) :
  simulated_bpm a == inject_Z z -> (0 <= z + 10 < 9007199254740992)%Z ->
  simulated_bpm (increase_bpm a) == inject_Z (Z.min (z + 10) 200).
Proof.
  intros H B. cbn [increase_bpm simulated_bpm]. apply (f64_min_int _ (z + 10) 200).
  assert (E : simulated_bpm a + 10 == inject_Z (z + 10)) by (rewrite H; unfold Qeq; cbn; lia).
  unfold fadd. rewrite (F64Facts.f64_round_Qeq _ _ E). apply F64Facts.f64_round_int. exact B.
Qed.

Lemma decrease_bpm_int (a : App) (z : Z) :
  simulated_bpm a == inject_Z z -> (0 <= z - 10 < 9007199254740992)%Z ->
  simulated_bpm (decrease_bpm a) == inject_Z (Z.max (z - 10) 60).
Proof.
  intros H B. cbn [decrease_bpm simulated_bpm]. apply (f64_max_int _ (z - 10) 60).
  assert (E : simulated_bpm a - 10 == inject_Z (z - 10)) by (rewrite H; unfold Qeq; cbn; lia).
  unfold fsub. rewrite (F64Facts.f64_round_Qeq _ _ E). apply F64Facts.f64_round_int. exact B.
Qed.

Lemma f64_min_bounds (x c m : Q) : m <= x -> m <= c -> m <= f64_min x c /\ f64_min x c <= c.
Proof.
  intros Hx Hc. unfold f64_min. destruct (Qle_bool x c) eqn:E.
  - apply Qle_bool_iff in E. split; assumption.
  - split; [exact Hc | apply Qle_refl].
Qed.

Lemma f64_max_bounds (x c m : Q) : x <= m -> c <= m -> c <= f64_max x c /\ f64_max x c <= m.
Proof.
  intros Hx Hc. unfold f64_max. destruct (Qle_bool c x) eqn:E.
  - apply Qle_bool_iff in E. split; assumption.
  - split; [apply Qle_refl | exact Hc].
Qed.

Lemma handle_key_ok (k : KeyCode) (a a' : App) :
  app_ok a -> handle_key k a = Some a' -> app_ok a'.
Proof.
  intros [Hc [z (Hz & Hr & Hm)]].
  assert (Next : app_ok (next_color a)).
  { split; [cbn [next_color current_color_scheme]; apply Nat.mod_upper_bound; lia | exists z; auto]. }
  assert (Prev : app_ok (prev_color a)).
  { split; [cbn [prev_color current_color_scheme]; destruct (Nat.eqb_spec (current_color_scheme a) 0); lia | exists z; auto]. }
  assert (Up : app_ok (increase_bpm a)).
  { split; [exact Hc|]. exists (Z.min (z + 10) 200). split; [apply increase_bpm_int; [exact Hz | lia]|].
    split; [lia|]. destruct (Z.le_ge_cases (z + 10) 200).
    - rewrite Z.min_l by lia. rewrite Z.add_mod, Hm by lia. reflexivity.
    - rewrite Z.min_r by lia. reflexivity. }
  assert (Down : app_ok (decrease_bpm a)).
  { split; [exact Hc|]. exists (Z.max (z - 10) 60). split; [apply decrease_bpm_int; [exact Hz | lia]|].
    split; [lia|]. destruct (Z.le_ge_cases (z - 10) 60).
    - rewrite Z.max_r by lia. reflexivity.
    - rewrite Z.max_l by lia. rewrite Zminus_mod, Hm by lia. reflexivity. }
  assert (Same : app_ok a) by (split; [exact Hc | exists z; auto]).
  destruct k as [c| | | | |]; cbn [handle_key]; intros E; try (injection E as <-; assumption).
  destruct (Ascii.eqb c "q"%char); [discriminate E|].
  destruct (Ascii.eqb c "n"%char); [injection E as <-; exact Next|].
  destruct (Ascii.eqb c "p"%char); injection E as <-; assumption.
Qed.

Lemma run_keys_ok (ks : list KeyCode) (a : App) : app_ok a -> app_ok (run_keys ks a).
Proof.
  revert a. induction ks as [|k ks IH]; intros a Ha; cbn [run_keys]; [exact Ha|].
  destruct (handle_key k a) as [a'|] eqn:E; [exact (IH a' (handle_key_ok k a a' Ha E)) | exact Ha].
Qed.

(** X10: whatever keys are pressed from [App::new()], the scheme index stays
    below 6 and the BPM is a multiple of 10 between 60 and 200. *)
Theorem run_keys_invariant (ks : list KeyCode) :
  let a := run_keys ks new in
  (current_color_scheme a < 6)%nat
  /\ exists z : Z, simulated_bpm a == inject_Z z /\ (60 <= z <= 200)%Z /\ (z mod 10 = 0)%Z.
Proof.
  apply run_keys_ok. split; [cbn; lia|]. exists 120%Z. split; [reflexivity | split; [lia | reflexivity]].
Qed.

Ltac scheme_cases c :=
  do 6 (destruct c as [|c]; [reflexivity|]); lia.

(** X11: on an index below 6, [prev_color] undoes [next_color] and
    conversely. *)
Theorem next_prev_inverse (a : App) :
  (current_color_scheme a < 6)%nat ->
  prev_color (next_color a) = a /\ next_color (prev_color a) = a.
Proof.
  destruct a as [c b]. cbn [current_color_scheme]. intros Hc.
  split; unfold next_color, prev_color; cbn [current_color_scheme simulated_bpm]; scheme_cases c.
Qed.

Lemma next_prev_inverse_witness :
  (current_color_scheme new < 6)%nat
  /\ prev_color (next_color new) = new /\ next_color (prev_color new) = new.
Proof.
  assert (H : (current_color_scheme new < 6)%nat) by (cbn; lia).
  split; [exact H | exact (next_prev_inverse new H)].
Defined.

(** X12: [next_color] cycles with period 6 and passes through every one of
    the six schemes: from any index below 6, six presses come back and some
    number of presses below 6 reaches any given scheme. *)
Theorem next_color_cycle (a : App) :
  (current_color_scheme a < 6)%nat ->
  Nat.iter 6 next_color a = a
  /\ forall s, exists k, (k < 6)%nat /\ color_scheme (Nat.iter k next_color a) = s.
Proof.
  destruct a as [c b]. cbn [current_color_scheme]. intros Hc. split.
  - scheme_cases c.
  - intros s. exists ((scheme_index s + 6 - c) mod 6). split; [apply Nat.mod_upper_bound; lia|].
    do 6 (destruct c as [|c]; [destruct s; reflexivity|]); lia.
Qed.

Lemma next_color_cycle_witness :
  (current_color_scheme new < 6)%nat
  /\ Nat.iter 6 next_color new = new
  /\ forall s, exists k, (k < 6)%nat /\ color_scheme (Nat.iter k next_color new) = s.
Proof.
  assert (H : (current_color_scheme new < 6)%nat) by (cbn; lia).
  split; [exact H | exact (next_color_cycle new H)].
Defined.

(** X13: from any BPM in [[60, 200]] (not only the multiples of 10 the
    keys produce), 14 presses of Up reach the cap 200 and 14 presses of Down
    reach the floor 60, with the [f64] additions rounded. *)
Theorem bpm_saturates (a : App) :
  60 <= simulated_bpm a <= 200 ->
  simulated_bpm (Nat.iter 14 increase_bpm a) == 200
  /\ simulated_bpm (Nat.iter 14 decrease_bpm a) == 60.
Proof.
  intros [L U].
  assert (Up : forall n, inject_Z (Z.min (60 + 10 * Z.of_nat n) 200) <= simulated_bpm (Nat.iter n increase_bpm a)
                         /\ simulated_bpm (Nat.iter n increase_bpm a) <= 200).
  { induction n as [|n [IL IU]]; cbn [Nat.iter].
    - split; [exact L | exact U].
    - cbn [increase_bpm simulated_bpm]. apply f64_min_bounds.
      + set (m := Z.min (60 + 10 * Z.of_nat n) 200) in IL.
        apply Qle_trans with (inject_Z (m + 10)).
        * rewrite <- Zle_Qle. unfold m. lia.
        * rewrite <- (F64Facts.f64_round_int (m + 10)) by (unfold m; lia).
          unfold fadd. apply F64Facts.f64_round_mono.
          rewrite inject_Z_plus. apply Qplus_le_compat; [exact IL | apply Qle_refl].
      + change 200 with (inject_Z 200). rewrite <- Zle_Qle. lia. }
  assert (Down : forall n, 60 <= simulated_bpm (Nat.iter n decrease_bpm a)
                           /\ simulated_bpm (Nat.iter n decrease_bpm a) <= inject_Z (Z.max (200 - 10 * Z.of_nat n) 60)).
  { induction n as [|n [IL IU]]; cbn [Nat.iter].
    - split; [exact L | exact U].
    - cbn [decrease_bpm simulated_bpm]. apply f64_max_bounds.
      + set (m := Z.max (200 - 10 * Z.of_nat n) 60) in IU.
        apply Qle_trans with (inject_Z (m - 10)).
        * rewrite <- (F64Facts.f64_round_int (m - 10)) by (unfold m; lia).
          unfold fsub. apply F64Facts.f64_round_mono.
          unfold Zminus. rewrite inject_Z_plus. apply Qplus_le_compat; [exact IU | apply Qle_refl].
        * rewrite <- Zle_Qle. unfold m. lia.
      + change 60 with (inject_Z 60). rewrite <- Zle_Qle. lia. }
  destruct (Up 14%nat) as [U1 U2]. destruct (Down 14%nat) as [D1 D2].
  split; apply Qle_antisym; assumption.
Qed.

Lemma bpm_saturates_witness :
  60 <= simulated_bpm new <= 200
  /\ simulated_bpm (Nat.iter 14 increase_bpm new) == 200
  /\ simulated_bpm (Nat.iter 14 decrease_bpm new) == 60.
Proof.
  assert (H : 60 <= simulated_bpm new <= 200) by (split; unfold Qle; cbn; lia).
  split; [exact H | exact (bpm_saturates new H)].
Defined.

Lemma Q2R_inject_Z (z : Z) : Q2R (inject_Z z) = IZR z.
Proof. unfold Q2R, inject_Z. cbn [Qnum Qden]. rewrite Rinv_1, Rmult_1_r. reflexivity. Qed.

(** X14: the beat phase the demo draws with stays in [[0, 1)] at every
    BPM the keys can set, for any non-negative elapsed time. *)
Theorem beat_progress_reachable (ks : list KeyCode) (elapsed : R) :
  (0 <= elapsed)%R ->
  (0 <= RadialWave.beat_progress elapsed (Q2R (simulated_bpm (run_keys ks new))) < 1)%R.
Proof.
  intros He. destruct (run_keys_invariant ks) as [_ [z (Hz & Hr & _)]].
  rewrite (Qreals.Qeq_eqR _ _ Hz), Q2R_inject_Z.
  assert (Hpos : (0 < IZR z)%R) by (apply IZR_lt; lia).
  unfold RadialWave.beat_progress. apply RealFacts.frem_nonneg_bounds; [|Lra.lra].
  unfold Rdiv. apply Rmult_le_pos; [apply Rmult_le_pos; Lra.lra | Lra.lra].
Qed.

Lemma beat_progress_reachable_witness :
  (0 <= 2)%R
  /\ (0 <= RadialWave.beat_progress 2 (Q2R (simulated_bpm (run_keys [Up; Up; Down] new))) < 1)%R.
Proof.
  assert (H : (0 <= 2)%R) by Lra.lra. split; [exact H|]. exact (beat_progress_reachable _ 2 H).
Defined.

End DemoAppProofs.

Module ColorMoreProofs.
Import Lqa CastFacts Visualizations.

Lemma fmul_zero (c : Z) : as_u8 (fmul (of_int c) 0) = 0%Z.
Proof. unfold fmul. rewrite (F64Facts.f64_round_zero _ (Qmult_0_r _)). reflexivity. Qed.

Lemma apply_intensity_zero (c : rgb) : apply_intensity c 0 = Rgb 0 0 0.
Proof. destruct c as [[c0 c1] c2]. unfold apply_intensity. rewrite !fmul_zero. reflexivity. Qed.

(** X15: at intensity 0 every scheme, level and album colour gives black
    [Rgb(0, 0, 0)], in both resolvers. *)
Theorem zero_intensity_is_black (scheme : ColorScheme) (ws : Waveform.ColorScheme)
    (level : Z) (album_color : option rgb) :
  get_color_for_scheme scheme 0 level album_color = Rgb 0 0 0
  /\ Waveform.get_color_for_scheme ws 0 level = Rgb 0 0 0.
Proof.
  split.
  - destruct scheme; try destruct album_color as [[[r g] b]|]; apply apply_intensity_zero.
  - destruct ws; apply apply_intensity_zero.
Qed.

Lemma apply_intensity_mono (c : rgb) (i j : Q) :
  rgb_in_range c -> i <= j -> color_le (apply_intensity c i) (apply_intensity c j).
Proof.
  destruct c as [[c0 c1] c2]. intros (H0 & H1 & H2) Hij. cbn [apply_intensity color_le].
  pose proof (of_int_bounds _ H0). pose proof (of_int_bounds _ H1). pose proof (of_int_bounds _ H2).
  unfold fmul. repeat split; apply as_u8_mono, F64Facts.f64_round_mono; nra.
Qed.

Lemma custom_base_in_range (r g b level : Z) :
  rgb_in_range (r, g, b) -> rgb_in_range (custom_base r g b level).
Proof.
  intros H. unfold custom_base.
  destruct level as [|[p|p|]|p]; try exact H;
    try (destruct p; try (cbn; repeat split; apply as_u8_range)); cbn; repeat split; apply as_u8_range.
Qed.

Lemma tables_in_range (level : Z) :
  rgb_in_range (cyan_base level) /\ rgb_in_range (warm_base level)
  /\ rgb_in_range (purple_base level) /\ rgb_in_range (green_base level)
  /\ rgb_in_range (sunset_base level) /\ rgb_in_range (ocean_base level).
Proof.
  repeat split;
    [ exact (ColorProofs.builtin_base_in_range Cyan _ level eq_refl)
    | exact (ColorProofs.builtin_base_in_range Warm _ level eq_refl)
    | exact (ColorProofs.builtin_base_in_range Purple _ level eq_refl)
    | exact (ColorProofs.builtin_base_in_range Green _ level eq_refl)
    | exact (ColorProofs.builtin_base_in_range Sunset _ level eq_refl)
    | exact (ColorProofs.builtin_base_in_range Ocean _ level eq_refl) ].
Qed.

(** X16: the resolver is monotone in the intensity: a larger intensity never
    darkens any channel (for every scheme and level, with a byte-valued
    album colour). *)
Theorem get_color_monotone (scheme : ColorScheme) (level : Z) (album_color : option rgb) (i j : Q) :
  match album_color with Some c => rgb_in_range c | None => True end ->
  i <= j ->
  color_le (get_color_for_scheme scheme i level album_color)
           (get_color_for_scheme scheme j level album_color).
Proof.
  intros Ha Hij. destruct (tables_in_range level) as (T1 & T2 & T3 & T4 & T5 & T6).
  destruct scheme; try (apply apply_intensity_mono; [assumption | exact Hij]).
  destruct album_color as [[[r g] b]|]; apply apply_intensity_mono; try exact Hij.
  - apply custom_base_in_range; exact Ha.
  - exact T1.
Qed.

Lemma get_color_monotone_witness :
  rgb_in_range (30, 215, 96)%Z /\ (1#2) <= 1
  /\ color_le (get_color_for_scheme Custom (1#2) 1 (Some (30, 215, 96)%Z))
              (get_color_for_scheme Custom 1 1 (Some (30, 215, 96)%Z)).
Proof.
  assert (H1 : rgb_in_range (30, 215, 96)%Z) by (cbn; unfold is_u8; lia).
  assert (H2 : (1#2) <= 1) by (unfold Qle; cbn; lia).
  split; [exact H1|]. split; [exact H2|].
  exact (get_color_monotone Custom 1 (Some (30, 215, 96)%Z) _ _ H1 H2).
Defined.

Lemma scaled_le (c : Z) (w : Q) : is_u8 c -> 0 <= w -> w <= 1 ->
  (as_u8 (fmul (of_int c) w) <= c)%Z.
Proof.
  intros Hc H0 H1. rewrite <- (as_u8_of_int c Hc) at 2. apply as_u8_mono.
  apply (ColorProofs.fmul_channel c w Hc). split; assumption.
Qed.

Lemma scaled_le_scaled (c : Z) (v w : Q) : is_u8 c -> v <= w ->
  (as_u8 (fmul (of_int c) v) <= as_u8 (fmul (of_int c) w))%Z.
Proof.
  intros Hc H. apply as_u8_mono, F64Facts.f64_round_mono.
  pose proof (of_int_bounds c Hc). nra.
Qed.

(** X17: the [Custom] tiers built from an album colour dim channel by
    channel: level 3 <= level 2 <= level 1 <= level 0 (the album colour). *)
Theorem custom_tiers_descend (r g b : Z) :
  rgb_in_range (r, g, b) ->
  rgb_le (custom_base r g b 3) (custom_base r g b 2)
  /\ rgb_le (custom_base r g b 2) (custom_base r g b 1)
  /\ rgb_le (custom_base r g b 1) (custom_base r g b 0).
Proof.
  intros (Hr & Hg & Hb). cbn [custom_base rgb_le].
  repeat split; solve [ apply scaled_le_scaled; [assumption | apply Qle_bool_iff; vm_compute; reflexivity]
                      | apply scaled_le; [assumption | apply Qle_bool_iff; vm_compute; reflexivity
                                          | apply Qle_bool_iff; vm_compute; reflexivity] ].
Qed.

Lemma custom_tiers_descend_witness :
  rgb_in_range (30, 215, 96)%Z
  /\ rgb_le (custom_base 30 215 96 3) (custom_base 30 215 96 2)
  /\ rgb_le (custom_base 30 215 96 2) (custom_base 30 215 96 1)
  /\ rgb_le (custom_base 30 215 96 1) (custom_base 30 215 96 0).
Proof.
  assert (H : rgb_in_range (30, 215, 96)%Z) by (cbn; unfold is_u8; lia).
  split; [exact H | exact (custom_tiers_descend _ _ _ H)].
Defined.

(** X18: the complementary colour of the complementary colour is the
    album colour again. *)
Theorem complement_involution (r g b : Z) :
  is_u8 r -> is_u8 g -> is_u8 b ->
  let '(r', g', b') := nth 1 (colors (generate_color_palette r g b)) (0, 0, 0)%Z in
  nth 1 (colors (generate_color_palette r' g' b')) (0, 0, 0)%Z = (r, g, b).
Proof.
  unfold is_u8. intros Hr Hg Hb. cbn [generate_color_palette colors nth].
  unfold u8_saturating_sub. f_equal; [f_equal|]; lia.
Qed.

Lemma complement_involution_witness :
  is_u8 30 /\ is_u8 215 /\ is_u8 96
  /\ (let '(r', g', b') := nth 1 (colors (generate_color_palette 30 215 96)) (0, 0, 0)%Z in
      nth 1 (colors (generate_color_palette r' g' b')) (0, 0, 0)%Z = (30, 215, 96)%Z).
Proof.
  assert (H1 : is_u8 30) by (unfold is_u8; lia). assert (H2 : is_u8 215) by (unfold is_u8; lia).
  assert (H3 : is_u8 96) by (unfold is_u8; lia).
  split; [exact H1|]. split; [exact H2|]. split; [exact H3|].
  exact (complement_involution _ _ _ H1 H2 H3).
Defined.

Lemma floor_blend_between (x y : Z) (wx wy : Q) :
  is_u8 x -> is_u8 y -> 0 <= wx -> 0 <= wy -> wx + wy == 1 ->
  between2 x y (Qfloor (of_int x * wx + of_int y * wy)).
Proof.
  intros Hx Hy Hwx Hwy Hw. unfold between2.
  destruct (Z.le_ge_cases x y) as [L|L'].
  - rewrite Z.min_l, Z.max_r by exact L.
    assert (Lq : of_int x <= of_int y) by (unfold of_int; rewrite <- Zle_Qle; exact L).
    split.
    + apply Z.le_trans with (Qfloor (inject_Z x)); [rewrite Qfloor_Z; lia | apply Qfloor_resp_le].
      unfold of_int in *. nra.
    + apply Qfloor_le_int. unfold of_int in *. nra.
  - assert (L : (y <= x)%Z) by lia. rewrite Z.min_r, Z.max_l by exact L.
    assert (Lq : of_int y <= of_int x) by (unfold of_int; rewrite <- Zle_Qle; exact L).
    split.
    + apply Z.le_trans with (Qfloor (inject_Z y)); [rewrite Qfloor_Z; lia | apply Qfloor_resp_le].
      unfold of_int in *. nra.
    + apply Qfloor_le_int. unfold of_int in *. nra.
Qed.

(** X19: each channel of the two analogous colours lies between the two
    album channels it blends. *)
Theorem analogous_between (r g b : Z) :
  is_u8 r -> is_u8 g -> is_u8 b ->
  let p := colors (generate_color_palette r g b) in
  (let '(a0, a1, a2) := nth 2 p (0, 0, 0)%Z in between2 r g a0 /\ between2 g b a1 /\ between2 b r a2)
  /\ (let '(d0, d1, d2) := nth 3 p (0, 0, 0)%Z in between2 r b d0 /\ between2 g r d1 /\ between2 b g d2).
Proof.
  intros Hr Hg Hb. cbn [generate_color_palette colors nth].
  assert (W0 : 0 <= 8#10) by (unfold Qle; cbn; lia). assert (W1 : 0 <= 2#10) by (unfold Qle; cbn; lia).
  assert (W : (8#10) + (2#10) == 1) by reflexivity. assert (W' : (2#10) + (8#10) == 1) by reflexivity.
  rewrite !ColorProofs.blend_floor by assumption.
  repeat split; apply floor_blend_between; assumption.
Qed.

Lemma analogous_between_witness :
  is_u8 30 /\ is_u8 215 /\ is_u8 96
  /\ (let p := colors (generate_color_palette 30 215 96) in
      (let '(a0, a1, a2) := nth 2 p (0, 0, 0)%Z in
         between2 30 215 a0 /\ between2 215 96 a1 /\ between2 96 30 a2)
      /\ (let '(d0, d1, d2) := nth 3 p (0, 0, 0)%Z in
         between2 30 96 d0 /\ between2 215 30 d1 /\ between2 96 215 d2)).
Proof.
  assert (H1 : is_u8 30) by (unfold is_u8; lia). assert (H2 : is_u8 215) by (unfold is_u8; lia).
  assert (H3 : is_u8 96) by (unfold is_u8; lia).
  split; [exact H1|]. split; [exact H2|]. split; [exact H3|].
  exact (analogous_between _ _ _ H1 H2 H3).
Defined.

(** X20: the darker variant is channel-wise below the album colour and the
    lighter one above it. *)
Theorem darker_base_lighter (r g b : Z) :
  is_u8 r -> is_u8 g -> is_u8 b ->
  let p := colors (generate_color_palette r g b) in
  rgb_le (nth 5 p (0, 0, 0)%Z) (nth 0 p (0, 0, 0)%Z) /\ rgb_le (nth 0 p (0, 0, 0)%Z) (nth 4 p (0, 0, 0)%Z).
Proof.
  unfold is_u8. intros Hr Hg Hb. cbn. unfold u8_saturating_sub, u8_saturating_add. lia.
Qed.

Lemma darker_base_lighter_witness :
  is_u8 230 /\ is_u8 40 /\ is_u8 96
  /\ (let p := colors (generate_color_palette 230 40 96) in
      rgb_le (nth 5 p (0, 0, 0)%Z) (nth 0 p (0, 0, 0)%Z) /\ rgb_le (nth 0 p (0, 0, 0)%Z) (nth 4 p (0, 0, 0)%Z)).
Proof.
  assert (H1 : is_u8 230) by (unfold is_u8; lia). assert (H2 : is_u8 40) by (unfold is_u8; lia).
  assert (H3 : is_u8 96) by (unfold is_u8; lia).
  split; [exact H1|]. split; [exact H2|]. split; [exact H3|].
  exact (darker_base_lighter _ _ _ H1 H2 H3).
Defined.

End ColorMoreProofs.

Module RadialMoreProofs.
Import Lra F64R RealFacts RadialWave.
Local Open Scope R_scope.

(** For a negative dividend and a positive divisor, [%] lands in
    [(-y, 0]]. *)
Lemma frem_neg_bounds (x y : R) : x < 0 -> 0 < y -> - y < frem x y <= 0.
Proof.
  intros Hx Hy. unfold frem.
  assert (Hq : x / y < 0).
  { unfold Rdiv. apply Rmult_neg_pos; [exact Hx | apply Rinv_0_lt_compat; exact Hy]. }
  rewrite (trunc_neg _ Hq). rewrite opp_IZR.
  set (u := - (x / y)). destruct (base_Int_part u) as [L U].
  assert (E : x = - u * y) by (unfold u; field; lra).
  assert (A : IZR (Int_part u) * y <= u * y) by (apply Rmult_le_compat_r; lra).
  assert (B : u * y < (IZR (Int_part u) + 1) * y) by (apply Rmult_lt_compat_r; lra).
  split; rewrite E; lra.
Qed.

(** X21: a cell at least [wave_offset = beat_progress * 15] away from the
    centre gets an intensity in [[0, 1]]. *)
Theorem radial_intensity_outside_offset (w h : nat) (bp : R) (x y : nat) :
  bp * 15 <= radial_cell_distance w h x y -> 0 <= cell_intensity w h bp x y <= 1.
Proof.
  intros Hd. rewrite (RadialProofs.cell_intensity_at w h bp x y (radial_cell_distance w h x y) eq_refl).
  pose proof (frem_nonneg_bounds (radial_cell_distance w h x y - bp * 15) 5 ltac:(lra) ltac:(lra)).
  destruct (Rlt_dec _ 1); lra.
Qed.

Lemma radial_intensity_outside_offset_witness :
  0 * 15 <= radial_cell_distance 20 10 3 5 /\ 0 <= cell_intensity 20 10 0 3 5 <= 1.
Proof.
  assert (H : 0 * 15 <= radial_cell_distance 20 10 3 5)
    by (unfold radial_cell_distance; rewrite Rmult_0_l; apply sqrt_pos).
  split; [exact H | exact (radial_intensity_outside_offset 20 10 0 3 5 H)].
Defined.

(** X22: a cell closer to the centre than [wave_offset] gets an intensity in
    [[1, 6)] and is always drawn as the level-0 '●' band. *)
Theorem radial_intensity_inside_offset (w h : nat) (bp : R) (x y : nat) :
  radial_cell_distance w h x y < bp * 15 ->
  1 <= cell_intensity w h bp x y < 6
  /\ cell_band (cell_intensity w h bp x y) = (Solid, Some (0%Z, cell_intensity w h bp x y)).
Proof.
  intros Hd. rewrite (RadialProofs.cell_intensity_at w h bp x y (radial_cell_distance w h x y) eq_refl).
  pose proof (frem_neg_bounds (radial_cell_distance w h x y - bp * 15) 5 ltac:(lra) ltac:(lra)).
  destruct (Rlt_dec _ 1) as [_|]; [|lra].
  split; [lra|]. unfold cell_band. destruct (Rlt_dec (7 / 10) _); [reflexivity | lra].
Qed.

Lemma radial_intensity_inside_offset_witness :
  radial_cell_distance 20 10 10 5 < (1 / 2) * 15
  /\ 1 <= cell_intensity 20 10 (1 / 2) 10 5 < 6
  /\ cell_band (cell_intensity 20 10 (1 / 2) 10 5)
     = (Solid, Some (0%Z, cell_intensity 20 10 (1 / 2) 10 5)).
Proof.
  assert (H : radial_cell_distance 20 10 10 5 < (1 / 2) * 15).
  { unfold radial_cell_distance.
    replace (INR 10) with 10 by (rewrite INR_IZR_INZ; reflexivity).
    replace (INR 20) with 20 by (rewrite INR_IZR_INZ; reflexivity).
    replace (INR 5) with 5 by (rewrite INR_IZR_INZ; reflexivity).
    replace (_ + _) with 0 by lra. rewrite sqrt_0. lra. }
  split; [exact H | exact (radial_intensity_inside_offset 20 10 (1 / 2) 10 5 H)].
Defined.

End RadialMoreProofs.

Module LinearMoreProofs.
Import Lra F64R RealFacts LinearWave LinearProofs.

Lemma wave_positions_row (w h : nat) (bp : R) (x : nat) : (x < w)%nat ->
  nth x (wave_positions w h bp) 0%Z = linear_row h bp x.
Proof. intros Hx. unfold wave_positions. cbv zeta. rewrite nth_map_seq by exact Hx. reflexivity. Qed.

Lemma as_usize_nonneg (v : R) : (0 <= as_usize v)%Z.
Proof. unfold as_usize. lia. Qed.

(** X23: in any area, column [x] of the linear wave has exactly one lit
    cell if its computed row is inside the area and none otherwise (the
    row is never negative). *)
Theorem linear_column_lit_iff (w h : nat) (bp : R) (album_color : option rgb) (x : nat) :
  (x < w)%nat ->
  column_lit_count (render_concentric_waves w h bp album_color) x
  = if Z.ltb (linear_row h bp x) (Z.of_nat h) then 1%nat else 0%nat.
Proof.
  intros Hx. unfold column_lit_count, render_concentric_waves.
  rewrite length_filter_sum, map_map.
  rewrite (map_ext_in _ (fun y => if Z.eqb (Z.of_nat y) (linear_row h bp x) then 1 else 0)%nat).
  - rewrite indicator_seq. pose proof (as_usize_nonneg (round
      (INR h / 2 + sin (INR x * (2 / 10) + bp * (5 / 100)) * Rmax (INR h / 5) (15 / 10)))) as H0.
    fold (linear_row h bp x) in H0.
    destruct (Z.leb_spec (Z.of_nat 0) (linear_row h bp x)), (Z.ltb_spec (linear_row h bp x) (Z.of_nat (0 + h))),
             (Z.ltb_spec (linear_row h bp x) (Z.of_nat h)); cbn; lia.
  - intros y _. rewrite nth_map_seq by exact Hx. rewrite is_lit_cell, (wave_positions_row w h bp x Hx).
    reflexivity.
Qed.

Lemma linear_column_lit_iff_witness :
  (3 < 10)%nat
  /\ column_lit_count (render_concentric_waves 10 4 0 None) 3
     = if Z.ltb (linear_row 4 0 3) (Z.of_nat 4) then 1%nat else 0%nat.
Proof.
  split; [lia|]. apply linear_column_lit_iff. lia.
Defined.

Lemma linear_row_range (h : nat) (bp : R) (x : nat) : (5 <= h)%nat ->
  (0 <= linear_row h bp x < Z.of_nat h)%Z.
Proof.
  intros Hh. unfold linear_row.
  assert (H5 : (5 <= INR h)%R).
  { replace 5%R with (INR 5) by (rewrite INR_IZR_INZ; reflexivity). apply le_INR. exact Hh. }
  set (s := sin (INR x * (2 / 10) + bp * (5 / 100))).
  pose proof (SIN_bound (INR x * (2 / 10) + bp * (5 / 100))) as Hs. fold s in Hs.
  set (v := (INR h / 2 + s * Rmax (INR h / 5) (15 / 10))%R).
  assert (Hv : (0 <= v /\ v + / 2 < INR h)%R).
  { unfold v, Rmax. destruct (Rle_dec (INR h / 5) (15 / 10)).
    - split; lra.
    - assert (P1 : (- (INR h / 5) <= s * (INR h / 5))%R).
      { assert (0 <= (s + 1) * (INR h / 5))%R by (apply Rmult_le_pos; lra). lra. }
      assert (P2 : (s * (INR h / 5) <= INR h / 5)%R).
      { assert (0 <= (1 - s) * (INR h / 5))%R by (apply Rmult_le_pos; lra). lra. }
      split; lra. }
  unfold round. destruct (Rle_dec 0 v) as [_|]; [|lra].
  destruct (base_Int_part (v + / 2)) as [L U].
  set (k := Int_part (v + / 2)) in *.
  assert (Hk0 : (0 <= k)%Z) by (assert (-1 < k)%Z by (apply lt_IZR; lra); lia).
  assert (Hkh : (k < Z.of_nat h)%Z) by (apply lt_IZR; rewrite <- INR_IZR_INZ; lra).
  unfold as_usize. rewrite trunc_nonneg by (apply IZR_le; exact Hk0).
  rewrite Int_part_IZR. lia.
Qed.

(** X24: in an area at least 5 rows high every column of the linear wave has
    exactly one lit cell, so the grid has [width] lit cells. *)
Theorem linear_wave_tall_area (w h : nat) (bp : R) (album_color : option rgb) :
  (5 <= h)%nat ->
  (forall x, (x < w)%nat -> column_lit_count (render_concentric_waves w h bp album_color) x = 1%nat)
  /\ lit_cell_count (render_concentric_waves w h bp album_color) = w.
Proof.
  intros Hh. split.
  - intros x Hx. rewrite (linear_column_lit_iff w h bp album_color x Hx).
    destruct (linear_row_range h bp x Hh) as [_ H]. apply Z.ltb_lt in H. rewrite H. reflexivity.
  - unfold lit_cell_count, render_concentric_waves. rewrite map_map.
    rewrite (map_ext (fun y => length (filter is_lit (map _ (seq 0 w))))
               (fun y => list_sum (map (fun x => if Z.eqb (Z.of_nat y)
                           (nth x (wave_positions w h bp) 0%Z) then 1 else 0)%nat (seq 0 w)))).
    + rewrite double_count; [apply length_seq|].
      intros x Hx. apply in_seq in Hx. rewrite (wave_positions_row w h bp x ltac:(lia)).
      exact (linear_row_range h bp x Hh).
    + intros y. rewrite length_filter_sum, map_map.
      f_equal. apply map_ext. intros x. rewrite is_lit_cell. reflexivity.
Qed.

Lemma linear_wave_tall_area_witness :
  (5 <= 8)%nat
  /\ (forall x, (x < 40)%nat -> column_lit_count (render_concentric_waves 40 8 (1 / 4) None) x = 1%nat)
  /\ lit_cell_count (render_concentric_waves 40 8 (1 / 4) None) = 40%nat.
Proof.
  split; [lia|]. apply linear_wave_tall_area. lia.
Defined.

End LinearMoreProofs.

Module DominantMoreProofs.
Import DominantColor DominantProofs.
Local Open Scope nat_scope.

Lemma filter_row_replace (p : rgb) (y : nat) (row : list rgb) (x0 i : nat) :
  kept (x0 + i, y, p) = false -> kept (x0 + i, y, nth i row (0, 0, 0)%Z) = false ->
  filter kept (enumerate_row x0 y (replace_nth i p row)) = filter kept (enumerate_row x0 y row).
Proof.
  revert x0 i. induction row as [|q row IH]; intros x0 i Hp Hq; [destruct i; reflexivity|].
  destruct i as [|i]; cbn [replace_nth enumerate_row filter nth] in *.
  - rewrite Nat.add_0_r in Hp, Hq. rewrite Hp, Hq. reflexivity.
  - destruct (kept (x0, y, q)); [f_equal|]; apply IH; rewrite Nat.add_succ_comm; assumption.
Qed.

Lemma filter_rows_replace (newrow : list rgb) (img : image) (y0 j : nat) :
  filter kept (enumerate_row 0 (y0 + j) newrow) = filter kept (enumerate_row 0 (y0 + j) (nth j img [])) ->
  filter kept (enumerate_rows y0 (replace_nth j newrow img)) = filter kept (enumerate_rows y0 img).
Proof.
  revert y0 j. induction img as [|row img IH]; intros y0 j H; [destruct j; reflexivity|].
  destruct j as [|j]; cbn [replace_nth enumerate_rows nth] in *; rewrite !filter_app.
  - rewrite Nat.add_0_r in H. rewrite H. reflexivity.
  - f_equal. apply IH. rewrite Nat.add_succ_comm. exact H.
Qed.

(** X25: changing a pixel that is not sampled, before and after the change
    (a coordinate not a multiple of 4, or a brightness outside
    [(20, 235)]), leaves the extracted colour unchanged. *)
Theorem extract_ignores_unsampled_pixel (img : image) (x y : nat) (p : rgb) :
  kept (x, y, p) = false -> kept (x, y, nth x (nth y img []) (0, 0, 0)%Z) = false ->
  extract_from_rgb (set_pixel img x y p) = extract_from_rgb img.
Proof.
  intros Hp Hq.
  assert (E : filter kept (enumerate_pixels (set_pixel img x y p)) = filter kept (enumerate_pixels img)).
  { unfold enumerate_pixels, set_pixel. apply filter_rows_replace.
    apply filter_row_replace; cbn [Nat.add]; assumption. }
  unfold extract_from_rgb. rewrite !fold_step, E. reflexivity.
Qed.

Lemma extract_ignores_unsampled_pixel_witness :
  kept (1, 0, (255, 0, 0)%Z) = false
  /\ kept (1, 0, nth 1 (nth 0 (repeat (repeat (127, 127, 127)%Z 8) 8) []) (0, 0, 0)%Z) = false
  /\ extract_from_rgb (set_pixel (repeat (repeat (127, 127, 127)%Z 8) 8) 1 0 (255, 0, 0)%Z)
     = extract_from_rgb (repeat (repeat (127, 127, 127)%Z 8) 8).
Proof.
  assert (H1 : kept (1, 0, (255, 0, 0)%Z) = false) by reflexivity.
  assert (H2 : kept (1, 0, nth 1 (nth 0 (repeat (repeat (127, 127, 127)%Z 8) 8) []) (0, 0, 0)%Z) = false)
    by reflexivity.
  split; [exact H1|]. split; [exact H2|]. exact (extract_ignores_unsampled_pixel _ 1 0 _ H1 H2).
Defined.

Lemma kept_coords (x y : nat) (c : rgb) :
  kept (x, y, c) = true -> Nat.eqb (x mod 4) 0 = true /\ Nat.eqb (y mod 4) 0 = true.
Proof.
  destruct c as [[r g] b]. unfold kept. intros H.
  apply andb_prop in H as [H _]. apply andb_prop in H as [H _]. apply andb_prop in H. exact H.
Qed.

Lemma mult4_count_cons (s len : nat) :
  mult4_count s (S len) = ((if Nat.eqb (s mod 4) 0 then 1 else 0) + mult4_count (S s) len)%nat.
Proof. unfold mult4_count. cbn [seq filter]. destruct (Nat.eqb (s mod 4) 0); reflexivity. Qed.

Lemma kept_row_count (x0 y : nat) (row : list rgb) :
  (length (filter kept (enumerate_row x0 y row))
   <= if Nat.eqb (y mod 4) 0 then mult4_count x0 (length row) else 0)%nat.
Proof.
  revert x0. induction row as [|c row IH]; intros x0; cbn [enumerate_row filter length].
  - destruct (Nat.eqb (y mod 4) 0); lia.
  - rewrite mult4_count_cons. specialize (IH (S x0)).
    destruct (kept (x0, y, c)) eqn:K.
    + destruct (kept_coords _ _ _ K) as [Ex Ey]. rewrite Ex, Ey in *. cbn [length].
      lia.
    + destruct (Nat.eqb (y mod 4) 0), (Nat.eqb (x0 mod 4) 0); lia.
Qed.

Lemma mult4_count_mono (s a b : nat) : (mult4_count s a <= mult4_count s (a + b))%nat.
Proof. unfold mult4_count. rewrite seq_app, filter_app, length_app. lia. Qed.

Lemma mult4_count_64 (len : nat) : (len <= 64)%nat -> (mult4_count 0 len <= 16)%nat.
Proof.
  intros H. replace 16%nat with (mult4_count 0 (len + (64 - len))).
  - apply mult4_count_mono.
  - replace (len + (64 - len))%nat with 64%nat by lia. reflexivity.
Qed.

Lemma kept_rows_count (y0 : nat) (img : image) :
  Forall (fun row => (length row <= 64)%nat) img ->
  (length (filter kept (enumerate_rows y0 img)) <= 16 * mult4_count y0 (length img))%nat.
Proof.
  revert y0. induction img as [|row img IH]; intros y0 H; cbn [enumerate_rows length]; [cbn; lia|].
  inversion H as [|? ? Hrow Hrest]; subst.
  rewrite filter_app, length_app, mult4_count_cons.
  pose proof (kept_row_count 0 y0 row). pose proof (mult4_count_64 _ Hrow). specialize (IH (S y0) Hrest).
  destruct (Nat.eqb (y0 mod 4) 0); lia.
Qed.

Lemma sum_channel_bounds (f : rgb -> Z) (l : list (nat * nat * rgb)) :
  (forall e, In e l -> 0 <= f (snd e) <= 255)%Z ->
  (0 <= sum_channel f l <= 255 * Z.of_nat (length l))%Z.
Proof.
  induction l as [|e l IH]; intros H; cbn [sum_channel fold_right length]; [lia|].
  fold (sum_channel f l). pose proof (H e (or_introl eq_refl)).
  pose proof (IH (fun e' He' => H e' (or_intror He'))). lia.
Qed.

(** X26: on an image of at most 64 × 64 byte pixels (the resized image) at
    most 256 samples are kept, and each channel sum is at most 255 times
    the count: the [u64] sums never come near overflow and each average is
    at most 255, so the final [as u8] keeps it. *)
Theorem sample_sums_bounded (img : image) :
  (length img <= 64)%nat -> Forall (fun row => (length row <= 64)%nat) img ->
  (forall p, In p (concat img) -> rgb_in_range p) ->
  let s := fold_left step (enumerate_pixels img) sums0 in
  (0 <= count s <= 256 /\ 0 <= r_sum s <= 255 * count s
   /\ 0 <= g_sum s <= 255 * count s /\ 0 <= b_sum s <= 255 * count s)%Z.
Proof.
  intros Hh Hw Hp s. subst s. rewrite fold_step. cbn [sums0 r_sum g_sum b_sum count].
  set (l := filter kept (enumerate_pixels img)).
  assert (Hl : (length l <= 256)%nat).
  { pose proof (kept_rows_count 0 img Hw) as K. pose proof (mult4_count_64 _ Hh). unfold l, enumerate_pixels. lia. }
  assert (Hin : forall e, In e l -> rgb_in_range (snd e)).
  { intros e He. apply filter_In in He as [He _]. apply Hp, enumerate_pixels_in, He. }
  assert (R : forall e, In e l -> (0 <= red (snd e) <= 255)%Z)
    by (intros e He; destruct (snd e) as [[r g] b] eqn:E; specialize (Hin e He); rewrite E in Hin;
        destruct Hin as (A & _ & _); exact A).
  assert (G : forall e, In e l -> (0 <= green (snd e) <= 255)%Z)
    by (intros e He; destruct (snd e) as [[r g] b] eqn:E; specialize (Hin e He); rewrite E in Hin;
        destruct Hin as (_ & A & _); exact A).
  assert (B : forall e, In e l -> (0 <= blue (snd e) <= 255)%Z)
    by (intros e He; destruct (snd e) as [[r g] b] eqn:E; specialize (Hin e He); rewrite E in Hin;
        destruct Hin as (_ & _ & A); exact A).
  pose proof (sum_channel_bounds red l R). pose proof (sum_channel_bounds green l G).
  pose proof (sum_channel_bounds blue l B). lia.
Qed.

Lemma sample_sums_bounded_witness :
  (length (repeat (repeat (127, 127, 127)%Z 64) 64) <= 64)%nat
  /\ Forall (fun row => (length row <= 64)%nat) (repeat (repeat (127, 127, 127)%Z 64) 64)
  /\ (forall p, In p (concat (repeat (repeat (127, 127, 127)%Z 64) 64)) -> rgb_in_range p)
  /\ (let s := fold_left step (enumerate_pixels (repeat (repeat (127, 127, 127)%Z 64) 64)) sums0 in
      (0 <= count s <= 256 /\ 0 <= r_sum s <= 255 * count s
       /\ 0 <= g_sum s <= 255 * count s /\ 0 <= b_sum s <= 255 * count s)%Z).
Proof.
  assert (H1 : (length (repeat (repeat (127, 127, 127)%Z 64) 64) <= 64)%nat)
    by (rewrite repeat_length; lia).
  assert (H2 : Forall (fun row => (length row <= 64)%nat) (repeat (repeat (127, 127, 127)%Z 64) 64)).
  { apply Forall_forall. intros r Hr. apply repeat_spec in Hr. subst r. rewrite repeat_length. lia. }
  assert (H3 : forall p, In p (concat (repeat (repeat (127, 127, 127)%Z 64) 64)) -> rgb_in_range p).
  { intros p Hp. rewrite (uniform_in _ _ _ _ Hp). cbn. unfold is_u8. lia. }
  split; [exact H1|]. split; [exact H2|]. split; [exact H3|].
  exact (sample_sums_bounded _ H1 H2 H3).
Defined.

End DominantMoreProofs.
